(** * CallAlgorithm: the selection engine of the random student caller

    A shallow embedding of [js/algorithms.js] (class [CallAlgorithm]) and the
    properties of its selection policies.  The file holds the class twice;
    the embedding follows the first text, the one with the repeat-avoidance
    state ([selectedStudents], [avoidImmediateRepeat]).

    Conventions of the embedding.
    - The engine object is the record [CallAlgorithm]; every method takes the
      object as [this] and, when it mutates it, returns the new object.
    - [Math.random()] is not a function of the program state: each call of
      [selectStudent] receives a [Chance], the values the random source yields
      during that call.  A draw is a rational in [0,1) ([valid_chance]).
    - A product [Math.random() * n] is exact in the embedding.  The program
      rounds it to double precision, which moves it by less than [n * 2^-53]
      ([rounding_margin]) and never across an integer that the exact product
      has reached.  A statement that names the entry picked at a given draw
      is made for the draws at which the rounded and the exact product pick
      the same entry.
    - [selectStudent] is an [async] method; it is modelled as seen by a caller
      that awaits it.  [selectMultipleStudents] does not await it, and is
      modelled with the promise objects it really handles. *)

From Stdlib Require Import QArith Qround Lqa.
From stdpp Require Import gmap strings list sorting.

Local Open Scope Z_scope.

(** ** Data model *)

(** A roster entry.  [callCount] and [lastCalled] may be missing on the
    JavaScript object; [lastCalled] is a time stamp in milliseconds. *)
Record Student := {
  id : Z;
  name : string;
  callCount : option Z;
  lastCalled : option Z
}.

(** The [algorithm] argument is a string; every string that is not one of the
    six known names takes the [default] branch of the dispatch. *)
Inductive Algorithm :=
  | Fair | Weighted | LeastCalled | RoundRobin | TimeBalanced | Group
  | Unknown (label : string).

Definition is_fair (a : Algorithm) : bool :=
  match a with Fair => true | _ => false end.

(** The roster store, of which the engine uses one query. *)
Record StorageManager := {
  shouldExcludeStudent : Z → Algorithm → bool
}.

(** The [options] object: both properties may be absent. *)
Record Options := {
  opt_avoidImmediateRepeat : option bool;
  opt_groupCount : option Z
}.

(** The fields of the engine object that change ([storageManager] is fixed at
    construction and is passed separately). *)
Record CallAlgorithm := {
  lastSelectedStudent : option Z;
  selectedStudents : gset Z;
  avoidImmediateRepeat : bool
}.

(** What the random source and the clock yield during one call:
    [random i] is the result of the i-th call of [Math.random()] outside a
    sort comparator, [shuffle] the effect of sorting with the comparator
    [() => Math.random() - 0.5], [clock i] the value of [new Date()] taken for
    the i-th roster entry. *)
Record Chance := {
  random : nat → Q;
  shuffle : list Student → list Student;
  clock : nat → Z
}.

Definition valid_draw (r : Q) : Prop := (0 <= r)%Q ∧ (r < 1)%Q.

Definition valid_chance (c : Chance) : Prop :=
  (∀ i, valid_draw (random c i)) ∧ (∀ l, shuffle c l ≡ₚ l).

(** ** JavaScript primitives *)

(** [x || d] on a numeric property that may be missing. *)
Definition or_default (x : option Z) (d : Z) : Z :=
  match x with
  | Some 0 | None => d
  | Some v => v
  end.

(** [arr[k]] for an integral [k]: [undefined] outside the array. *)
Definition js_index {A} (arr : list A) (k : Z) : option A :=
  if bool_decide (0 ≤ k) then arr !! Z.to_nat k else None.

(** [arr[Math.floor(r * arr.length)]], with the exact product. *)
Definition randomIndex (r : Q) (n : nat) : Z :=
  Qfloor (r * inject_Z (Z.of_nat n)).

Definition random_element {A} (r : Q) (arr : list A) : option A :=
  js_index arr (randomIndex r (length arr)).

(** [arr.findIndex(p)] *)
Fixpoint findIndex_from {A} (p : A → bool) (arr : list A) (i : Z) : Z :=
  match arr with
  | [] => -1
  | x :: rest => if p x then i else findIndex_from p rest (i + 1)
  end.

Definition findIndex {A} (p : A → bool) (arr : list A) : Z :=
  findIndex_from p arr 0.

(** [Math.max(...xs)] and [Math.min(...xs)] on a non-empty list (on the empty
    list JavaScript yields an infinity; every caller passes a list of at
    least two entries). *)
Definition Math_max (xs : list Z) : Z :=
  match xs with
  | [] => 0
  | x :: rest => foldl Z.max x rest
  end.

Definition Math_min (xs : list Z) : Z :=
  match xs with
  | [] => 0
  | x :: rest => foldl Z.min x rest
  end.

(** [arr.sort(cmp)] for a consistent comparator: the sort is stable, an entry
    moves behind another one only when [cmp] is positive. *)
Fixpoint sort_insert {A} (cmp : A → A → Q) (x : A) (sorted : list A) : list A :=
  match sorted with
  | [] => [x]
  | y :: rest =>
      if Qle_bool (cmp x y) 0 then x :: y :: rest
      else y :: sort_insert cmp x rest
  end.

Definition js_sort {A} (cmp : A → A → Q) (arr : list A) : list A :=
  foldr (sort_insert cmp) [] arr.

(** [arr.slice(start, end)] for [0 <= start]. *)
Definition slice {A} (arr : list A) (start stop : Z) : list A :=
  take (Z.to_nat (stop - start)) (drop (Z.to_nat start) arr).

(** [Math.ceil(a / b)] for integers [a] and [b <> 0]. *)
Definition ceil_div (a b : Z) : Z := - ((- a) / b).

(** ** The engine *)

Definition counted (s : Student) : Z := or_default (callCount s) 0.

Definition has (this : CallAlgorithm) (s : Student) : bool :=
  bool_decide (id s ∈ selectedStudents this).

Definition set_size (this : CallAlgorithm) : Z :=
  Z.of_nat (size (selectedStudents this)).

Definition len {A} (arr : list A) : Z := Z.of_nat (length arr).

Definition constructor : CallAlgorithm :=
  {| lastSelectedStudent := None;
     selectedStudents := ∅;
     avoidImmediateRepeat := false |}.

Definition clear (this : CallAlgorithm) : CallAlgorithm :=
  {| lastSelectedStudent := lastSelectedStudent this;
     selectedStudents := ∅;
     avoidImmediateRepeat := avoidImmediateRepeat this |}.

Definition setAvoidImmediateRepeat (this : CallAlgorithm) (avoid : bool)
  : CallAlgorithm :=
  let this' :=
    {| lastSelectedStudent := lastSelectedStudent this;
       selectedStudents := selectedStudents this;
       avoidImmediateRepeat := avoid |} in
  if avoid then this' else clear this'.

Definition reset (this : CallAlgorithm) : CallAlgorithm :=
  {| lastSelectedStudent := None;
     selectedStudents := ∅;
     avoidImmediateRepeat := avoidImmediateRepeat this |}.

Definition fairRandom (this : CallAlgorithm) (r : Q) (students : list Student)
  : option Student :=
  match students with
  | [] => None
  | [only] => Some only
  | _ =>
      let availableStudents := filter (λ s, negb (has this s) = true) students in
      if avoidImmediateRepeat this
         && bool_decide (set_size this < len students - 1)
         && bool_decide (len availableStudents > 0)
      then random_element r availableStudents
      else random_element r students
  end.

(** An element access that is followed by a property access, as in
    [arr[i].student]: a [TypeError] when the element is [undefined]. *)
Inductive Completion (A : Type) :=
  | Return (value : A)
  | Throw.
Arguments Return {A} value.
Arguments Throw {A}.

Definition student_of {A} (item : option (Student * A))
  : Completion (option Student) :=
  match item with
  | Some entry => Return (Some (fst entry))
  | None => Throw
  end.

(** The loop of [selectByWeight].  The value [random] is the exact product
    of the draw and the total weight; the subtractions of the program are
    exact as long as the remainder is positive. *)
Fixpoint walk (items : list (Student * Z)) (random : Q) : option Student :=
  match items with
  | [] => None
  | item :: rest =>
      let random := (random - inject_Z (snd item))%Q in
      if Qle_bool random 0 then Some (fst item) else walk rest random
  end.

Definition totalWeight (items : list (Student * Z)) : Z :=
  foldl (λ sum item, sum + snd item) 0 items.

Definition selectByWeight (r : Q) (studentsWithWeights : list (Student * Z))
  : Completion (option Student) :=
  if bool_decide (totalWeight studentsWithWeights ≤ 0)
  then student_of (random_element r studentsWithWeights)
  else
    match walk studentsWithWeights (r * inject_Z (totalWeight studentsWithWeights)) with
    | Some student => Return (Some student)
    | None => student_of (last studentsWithWeights)
    end.

(** The weights [weightedRandom] hands to [selectByWeight]. *)
Definition studentsWithWeights (this : CallAlgorithm) (students : list Student)
  : list (Student * Z) :=
  let initial :=
    map (λ student,
           let callCount := counted student in
           let maxCallCount := Math_max (map counted students) in
           let baseWeight := 1 in
           (student, baseWeight + (maxCallCount - callCount)))
        students in
  if avoidImmediateRepeat this
     && bool_decide (set_size this < len students - 1)
  then map (λ item, if negb (has this (fst item))
                    then (fst item, snd item * 2) else item) initial
  else initial.

Definition weightedRandom (this : CallAlgorithm) (r : Q) (students : list Student)
  : Completion (option Student) :=
  match students with
  | [] => Return None
  | [only] => Return (Some only)
  | _ => selectByWeight r (studentsWithWeights this students)
  end.

(** The comparator of the sort in [leastCalledFirst]. *)
Definition leastCalled_compare (this : CallAlgorithm) (a b : Student) : Q :=
  let callCountA := counted a in
  let callCountB := counted b in
  if avoidImmediateRepeat this && has this a && negb (has this b) then 1%Q
  else if avoidImmediateRepeat this && negb (has this a) && has this b then (-1)%Q
  else inject_Z (callCountA - callCountB).

(** [arr.filter(s => (s.callCount || 0) === Math.min(...arr.map(...)))] *)
Definition leastCalledStudents (arr : list Student) : list Student :=
  let minCallCount := Math_min (map counted arr) in
  filter (λ s, counted s = minCallCount) arr.

Definition leastCalledFirst (this : CallAlgorithm) (r : Q) (students : list Student)
  : option Student :=
  match students with
  | [] => None
  | [only] => Some only
  | _ =>
      let sortedStudents := js_sort (leastCalled_compare this) students in
      let unselectedStudents :=
        filter (λ s, negb (has this s) = true) sortedStudents in
      if avoidImmediateRepeat this && bool_decide (len unselectedStudents > 0)
      then random_element r (leastCalledStudents unselectedStudents)
      else random_element r (leastCalledStudents sortedStudents)
  end.

(** [roundRobin] is the one policy that writes to the engine. *)
Definition roundRobin (this : CallAlgorithm) (students : list Student)
  : option Student * CallAlgorithm :=
  match students with
  | [] => (None, this)
  | [only] => (Some only, this)
  | _ =>
      if bool_decide (set_size this = 0) then (js_index students 0, this)
      else
        let lastIndex :=
          findIndex (λ s, bool_decide (Some (id s) = lastSelectedStudent this))
                    students in
        let nextIndex := Z.rem (lastIndex + 1) (len students) in
        if avoidImmediateRepeat this
           && bool_decide (set_size this >= len students - 1)
        then (js_index students nextIndex, clear this)
        else (js_index students nextIndex, this)
  end.

(** The score of the roster entry at position [i] in [timeBalanced]. *)
Definition score (this : CallAlgorithm) (c : Chance) (n : nat) (i : nat)
    (student : Student) : Q :=
  let now := clock c i in
  let lastCalled := or_default (lastCalled student) 0 in
  let callCount := counted student in
  let timeDiff := (inject_Z (now - lastCalled) / inject_Z (1000 * 60 * 60))%Q in
  let score := timeDiff in
  let score := if bool_decide (callCount = 0) then (score + 24)%Q else score in
  let score := (score + inject_Z ((Z.of_nat n - callCount) * 2))%Q in
  if avoidImmediateRepeat this && negb (has this student)
  then (score + 10)%Q else score.

Definition timeBalanced (this : CallAlgorithm) (c : Chance) (students : list Student)
  : Completion (option Student) :=
  match students with
  | [] => Return None
  | [only] => Return (Some only)
  | _ =>
      let studentsWithScores :=
        imap (λ i student, (student, score this c (length students) i student))
             students in
      let sorted := js_sort (λ a b, (snd b - snd a)%Q) studentsWithScores in
      let topCandidates := slice sorted 0 (Z.min 3 (len sorted)) in
      student_of (random_element (random c 0) topCandidates)
  end.

(** The groups built by the loop of [groupRandom]. *)
Definition groups_of (shuffled : list Student) (n groupCount : Z)
  : list (list Student) :=
  let groupSize := ceil_div n groupCount in
  map (λ i, let start := i * groupSize in
            let stop := Z.min (start + groupSize) n in
            slice shuffled start stop)
      (seqZ 0 groupCount).

Definition groupRandom (this : CallAlgorithm) (c : Chance)
    (students : list Student) (groupCount : Z) : option Student :=
  match students with
  | [] => None
  | _ =>
      if bool_decide (len students < groupCount)
      then fairRandom this (random c 0) students
      else
        let shuffled := shuffle c students in
        let groups := groups_of shuffled (len students) groupCount in
        match random_element (random c 0) groups with
        | Some selectedGroup => fairRandom this (random c 1) selectedGroup
        | None => None (* [fairRandom(undefined)] *)
        end
  end.

Definition filterStudentsBySpecialStatus (storageManager : option StorageManager)
    (students : list Student) (algorithm : Algorithm) : list Student :=
  match storageManager with
  | Some sm =>
      if is_fair algorithm then students
      else filter (λ student,
                     negb (shouldExcludeStudent sm (id student) algorithm) = true)
                  students
  | None => students
  end.

(** The [switch] of [selectStudent]. *)
Definition dispatch (this : CallAlgorithm) (c : Chance)
    (availableStudents : list Student) (algorithm : Algorithm) (options : Options)
  : Completion (option Student) * CallAlgorithm :=
  match algorithm with
  | Fair => (Return (fairRandom this (random c 0) availableStudents), this)
  | Weighted => (weightedRandom this (random c 0) availableStudents, this)
  | LeastCalled =>
      (Return (leastCalledFirst this (random c 0) availableStudents), this)
  | RoundRobin =>
      let result := roundRobin this availableStudents in
      (Return (fst result), snd result)
  | TimeBalanced => (timeBalanced this c availableStudents, this)
  | Group =>
      (Return (groupRandom this c availableStudents
                 (or_default (opt_groupCount options) 3)), this)
  | Unknown _ => (Return (fairRandom this (random c 0) availableStudents), this)
  end.

(** The bookkeeping after the [switch]. *)
Definition record_selection (this : CallAlgorithm) (selectedStudent : Student)
    (availableStudents : list Student) : CallAlgorithm :=
  let this :=
    {| lastSelectedStudent := Some (id selectedStudent);
       selectedStudents := selectedStudents this;
       avoidImmediateRepeat := avoidImmediateRepeat this |} in
  if avoidImmediateRepeat this then
    let this :=
      {| lastSelectedStudent := lastSelectedStudent this;
         selectedStudents := {[ id selectedStudent ]} ∪ selectedStudents this;
         avoidImmediateRepeat := avoidImmediateRepeat this |} in
    if bool_decide (set_size this >= len availableStudents) then clear this
    else this
  else this.

(** [selectStudent] as its awaiting caller sees it: the value the promise
    settles with and the engine at that moment. *)
Definition selectStudent (storageManager : option StorageManager)
    (this : CallAlgorithm) (c : Chance) (students : list Student)
    (algorithm : Algorithm) (options : Options)
  : Completion (option Student) * CallAlgorithm :=
  match students with
  | [] => (Return None, this)
  | _ =>
      let this :=
        setAvoidImmediateRepeat this
          (default false (opt_avoidImmediateRepeat options)) in
      let filtering := negb (is_fair algorithm) && bool_decide (is_Some storageManager) in
      let availableStudents :=
        if filtering
        then filterStudentsBySpecialStatus storageManager students algorithm
        else students in
      if filtering && bool_decide (len availableStudents = 0)
      then (Return None, this)
      else
        let result := dispatch this c availableStudents algorithm options in
        match fst result with
        | Return (Some selectedStudent) =>
            (Return (Some selectedStudent),
             record_selection (snd result) selectedStudent availableStudents)
        | outcome => (outcome, snd result)
        end
  end.

(** The roster entries the policies work on. *)
Definition eligible (storageManager : option StorageManager)
    (students : list Student) (algorithm : Algorithm) : list Student :=
  if negb (is_fair algorithm) && bool_decide (is_Some storageManager)
  then filterStudentsBySpecialStatus storageManager students algorithm
  else students.

(** Successive awaited calls on one roster, one [Chance] per call. *)
Fixpoint run (storageManager : option StorageManager) (this : CallAlgorithm)
    (cs : list Chance) (students : list Student) (algorithm : Algorithm)
    (options : Options) : list (Completion (option Student)) * CallAlgorithm :=
  match cs with
  | [] => ([], this)
  | c :: cs' =>
      let first := selectStudent storageManager this c students algorithm options in
      let others := run storageManager (snd first) cs' students algorithm options in
      (fst first :: fst others, snd others)
  end.

Definition picked_id (outcome : Completion (option Student)) : option Z :=
  match outcome with
  | Return (Some s) => Some (id s)
  | _ => None
  end.

(** *** Batch selection *)

(** The promise a call of [selectStudent] returns when it is not awaited,
    as it is when the call returns: settled when the body met no [await],
    pending when it was suspended at one. *)
Inductive Promise :=
  | Settled (outcome : Completion (option Student))
  | Pending.

(** A promise object has no property [id]. *)
Definition promise_id (p : Promise) : option Z := None.

(** A call of [selectStudent] that is not awaited.  The body runs up to its
    first [await], which is met in [filterStudentsBySpecialStatus] when there
    is a storage manager and the algorithm is not ['fair']. *)
Definition selectStudent_call (storageManager : option StorageManager)
    (this : CallAlgorithm) (c : Chance) (students : list Student)
    (algorithm : Algorithm) (options : Options) : Promise * CallAlgorithm :=
  match students with
  | [] => (Settled (Return None), this)
  | _ =>
      if negb (is_fair algorithm) && bool_decide (is_Some storageManager)
      then (Pending,
            setAvoidImmediateRepeat this
              (default false (opt_avoidImmediateRepeat options)))
      else
        let result := selectStudent storageManager this c students algorithm options in
        (Settled (fst result), snd result)
  end.

(** The loop of [selectMultipleStudents]: [todo] iterations are left, [cs]
    gives the [Chance] of each. *)
Fixpoint batch (storageManager : option StorageManager) (todo : nat)
    (this : CallAlgorithm) (cs : nat → Chance) (availableStudents : list Student)
    (algorithm : Algorithm) (options : Options) (selected : list Promise)
  : list Promise * CallAlgorithm :=
  match todo with
  | O => (selected, this)
  | S todo' =>
      let call :=
        selectStudent_call storageManager this (cs 0%nat) availableStudents
          algorithm options in
      let selectedStudent := fst call in
      (* a promise object is truthy *)
      let selected := selected ++ [selectedStudent] in
      let index :=
        findIndex (λ s, bool_decide (Some (id s) = promise_id selectedStudent))
                  availableStudents in
      let availableStudents :=
        if bool_decide (index ≠ -1)
        then delete (Z.to_nat index) availableStudents
        else availableStudents in
      batch storageManager todo' (snd call) (λ i, cs (S i)) availableStudents
        algorithm options selected
  end.

Definition selectMultipleStudents (storageManager : option StorageManager)
    (this : CallAlgorithm) (cs : nat → Chance) (students : list Student)
    (count : Z) (algorithm : Algorithm) (options : Options)
  : list Promise * CallAlgorithm :=
  if bool_decide (len students = 0) || bool_decide (count ≤ 0) then ([], this)
  else
    let originalAvoidRepeat := avoidImmediateRepeat this in
    let this := setAvoidImmediateRepeat this true in
    let result :=
      batch storageManager (Z.to_nat (Z.min count (len students))) this cs
        students algorithm options [] in
    (fst result, setAvoidImmediateRepeat (snd result) originalAvoidRepeat).

(** ** Rosters and inputs of the examples *)

Definition student (i : Z) (n : string) (calls : Z) : Student :=
  {| id := i; name := n; callCount := Some calls; lastCalled := None |}.

(** The roster of the specification's scenario. *)
Definition scenario : list Student :=
  [student 1 "A" 5; student 2 "B" 0; student 3 "C" 2].

(** Every draw is [q], the shuffle leaves the order as it is. *)
Definition constant_chance (q : Q) : Chance :=
  {| random := λ _, q; shuffle := λ l, l; clock := λ _, 86400000 |}.

Definition options_of (avoid : option bool) (groupCount : option Z) : Options :=
  {| opt_avoidImmediateRepeat := avoid; opt_groupCount := groupCount |}.

Definition no_options : Options := options_of None None.
Definition avoid_repeat : Options := options_of (Some true) None.

(** ** Statements and auxiliary notions of the properties *)

Definition exclude_everyone : StorageManager :=
  {| shouldExcludeStudent := λ _ _, true |}.

Definition four_students : list Student :=
  [student 1 "A" 0; student 2 "B" 0; student 3 "C" 0; student 4 "D" 0].

Definition two_students : list Student := [student 1 "A" 0; student 2 "B" 0].

(** The statement of the specification (C10): every call leaves the flag
    equal to the option, [false] when the option is absent. *)
Definition flag_follows_options : Prop :=
  ∀ sm this c students algorithm options,
    avoidImmediateRepeat (snd (selectStudent sm this c students algorithm options))
    = default false (opt_avoidImmediateRepeat options).

(** The statement of the specification (C9), through what clamping to one
    would give: some roster entry is returned. *)
Definition group_count_clamped : Prop :=
  ∀ this c students avoid groupCount,
    groupCount < 1 → students ≠ [] → valid_chance c →
    ∃ s, s ∈ students ∧
         fst (selectStudent None this c students Group
                (options_of avoid (Some groupCount))) = Return (Some s).

(** The draw that makes [Math.floor(r * n)] equal to [i]. *)
Definition draw_for (i n : nat) : Q := Z.of_nat i # Pos.of_nat n.

(** The entries [fairRandom] draws from. *)
Definition fair_pool (this : CallAlgorithm) (students : list Student)
  : list Student :=
  let unchosen := filter (λ s, negb (has this s) = true) students in
  if avoidImmediateRepeat this
     && bool_decide (set_size this < len students - 1)
     && bool_decide (len unchosen > 0)
  then unchosen else students.

(** The statement of the specification (C7): whatever the engine state,
    every roster entry is a possible outcome of a call under ['fair']. *)
Definition fair_reaches_every_entry : Prop :=
  ∀ sm this students options e,
    e ∈ students →
    ∃ c, valid_chance c ∧
         fst (selectStudent sm this c students Fair options) = Return (Some e).

(** The entries among which [leastCalledFirst] looks for the least call
    count. *)
Definition leastCalled_pool (this : CallAlgorithm) (students : list Student)
  : list Student :=
  let unchosen := filter (λ s, negb (has this s) = true) students in
  if avoidImmediateRepeat this && bool_decide (len unchosen > 0)
  then unchosen else students.

(** The statement of the specification (C6): the entry returned has the
    least call count of the eligible entries. *)
Definition leastCalled_returns_minimum : Prop :=
  ∀ sm this c students options s,
    valid_chance c →
    fst (selectStudent sm this c students LeastCalled options) = Return (Some s) →
    counted s = Math_min (map counted (eligible sm students LeastCalled)).

(** The weight of an entry as the specification words it: doubled for every
    entry not chosen yet whenever repeat avoidance is on. *)
Definition spec_weight (this : CallAlgorithm) (students : list Student)
    (s : Student) : Z :=
  let weight := 1 + (Math_max (map counted students) - counted s) in
  if avoidImmediateRepeat this && negb (has this s) then weight * 2 else weight.

(** The statement of the specification (C4), for the rosters on which
    weights are used. *)
Definition weights_as_specified : Prop :=
  ∀ this students,
    (2 ≤ length students)%nat →
    map snd (studentsWithWeights this students)
    = map (spec_weight this students) students.

(** The weight of an entry as [weightedRandom] computes it. *)
Definition weight (this : CallAlgorithm) (students : list Student)
    (s : Student) : Z :=
  let weight := 1 + (Math_max (map counted students) - counted s) in
  if avoidImmediateRepeat this
     && bool_decide (set_size this < len students - 1)
     && negb (has this s)
  then weight * 2 else weight.

(** What is left of the drawn value after the weights of the first [j]
    items have been subtracted. *)
Definition remainder (items : list (Student * Z)) (random : Q) (j : nat) : Q :=
  (random - inject_Z (totalWeight (take j items)))%Q.

(** The bound of the distance between the exact product [r * n] of a draw
    [r] in [0,1) with [n] and the product in double precision:
    [n * 2^-53]. *)
Definition rounding_margin (n : Z) : Q :=
  (inject_Z n * (1 # 9007199254740992))%Q.

(** Repeat avoidance for one algorithm: on a fresh engine, with the flag on
    at every call, the picks fall into consecutive cycles as long as the
    eligible roster, and no cycle holds an entry twice. *)
Definition cycles_without_repeat (algorithm : Algorithm) : Prop :=
  ∀ sm students cs groupCount,
    NoDup (map id students) → Forall valid_chance cs →
    let out :=
      fst (run sm constructor cs students algorithm
             (options_of (Some true) groupCount)) in
    let n := length (eligible sm students algorithm) in
    ∀ k, Forall (λ outcome, is_Some (picked_id outcome)) (take n (drop (k * n) out))
         ∧ NoDup (map picked_id (take n (drop (k * n) out))).

(** The statement of the specification (C3): this holds of every policy. *)
Definition no_repeat_within_a_cycle : Prop :=
  ∀ algorithm, cycles_without_repeat algorithm.

(** The roster index at which the next call of [roundRobin] picks. *)
Definition roundRobin_next (pool : list Student) (this : CallAlgorithm)
    (j : nat) : Prop :=
  (selectedStudents this = ∅ ∧ j = 0%nat)
  ∨ (selectedStudents this ≠ ∅
     ∧ ∃ i s, pool !! i = Some s ∧ lastSelectedStudent this = Some (id s)
              ∧ j = (S i mod length pool)%nat).

(** ** Prediction *)

(** The text of [reason] is a template filled with numbers; the embedding
    keeps the template and the numbers. *)
Inductive Reason :=
  | EqualChance
  | WeightReason (weight callCount : Z)
  | RankReason (rank : Z).

Record Prediction := {
  pred_student : Student;
  probability : Q;
  reason : Reason
}.

(** The end of [predictNextStudents]: sort by falling probability, keep
    five. *)
Definition top_predictions (predictions : list Prediction) : list Prediction :=
  slice (js_sort (λ a b, (probability b - probability a)%Q) predictions) 0 5.

Definition fair_predictions (students : list Student) : list Prediction :=
  map (λ student,
         {| pred_student := student;
            probability := (1 / inject_Z (len students))%Q;
            reason := EqualChance |})
      students.

Definition predictNextStudents (students : list Student) (algorithm : Algorithm)
  : list Prediction :=
  match students with
  | [] => []
  | _ =>
      match algorithm with
      | Weighted =>
          let maxCallCount := Math_max (map counted students) in
          top_predictions
            (map (λ student,
                    let weight := (maxCallCount - counted student) + 1 in
                    {| pred_student := student;
                       probability := inject_Z weight;
                       reason := WeightReason weight (counted student) |})
                 students)
      | LeastCalled =>
          let sortedStudents :=
            js_sort (λ a b, inject_Z (counted a - counted b)) students in
          top_predictions
            (imap (λ index student,
                     {| pred_student := student;
                        probability := (1 / inject_Z (Z.of_nat index + 1))%Q;
                        reason := RankReason (Z.of_nat index + 1) |})
                  sortedStudents)
      | _ => top_predictions (fair_predictions students)
      end
  end.

(** The roster in the order of rising call counts, ties in roster order. *)
Definition by_call_count (students : list Student) : list Student :=
  js_sort (λ a b, inject_Z (counted a - counted b)) students.

(** [groupRandom] cuts no empty group. *)
Definition groups_all_filled (n groupCount : Z) : Prop :=
  1 ≤ groupCount ≤ n ∧ (groupCount - 1) * ceil_div n groupCount < n.

(** A storage manager that excludes the entry with id 1. *)
Definition exclude_first : StorageManager :=
  {| shouldExcludeStudent := λ i _, bool_decide (i = 1) |}.

(** The scored entries of [timeBalanced], and those among them whose score
    is above the score of [entry]. *)
Definition studentsWithScores (this : CallAlgorithm) (c : Chance)
    (students : list Student) : list (Student * Q) :=
  imap (λ i student, (student, score this c (length students) i student))
       students.

Definition scored_above (entry : Student * Q) (scored : list (Student * Q))
  : list (Student * Q) :=
  filter (λ other, Qle_bool (snd other) (snd entry) = false) scored.

(** ** Elementary facts *)

Lemma valid_constant_chance (q : Q) :
  valid_draw q → valid_chance (constant_chance q).
Proof. intros Hq. split; [intros i; exact Hq | intros l; reflexivity]. Qed.

Lemma valid_draw_zero : valid_draw 0.
Proof. split; [apply Qle_refl | reflexivity]. Qed.

Lemma eligible_fair sm students : eligible sm students Fair = students.
Proof. reflexivity. Qed.

Lemma eligible_no_storage students algorithm :
  eligible None students algorithm = students.
Proof. unfold eligible. by rewrite andb_false_r. Qed.

Lemma eligible_filtered sm students algorithm :
  algorithm ≠ Fair →
  eligible (Some sm) students algorithm =
  filter (λ s, negb (shouldExcludeStudent sm (id s) algorithm) = true) students.
Proof. intros Hnf. unfold eligible. by destruct algorithm. Qed.

(** [selectStudent] in terms of the eligible entries. *)
Lemma selectStudent_eligible sm this c students algorithm options :
  students ≠ [] →
  selectStudent sm this c students algorithm options =
  let this' :=
    setAvoidImmediateRepeat this
      (default false (opt_avoidImmediateRepeat options)) in
  let pool := eligible sm students algorithm in
  if negb (is_fair algorithm) && bool_decide (is_Some sm)
     && bool_decide (len pool = 0)
  then (Return None, this')
  else
    let result := dispatch this' c pool algorithm options in
    match fst result with
    | Return (Some selectedStudent) =>
        (Return (Some selectedStudent),
         record_selection (snd result) selectedStudent pool)
    | outcome => (outcome, snd result)
    end.
Proof.
  intros Hne. destruct students as [|s rest]; [done|].
  unfold selectStudent, eligible.
  by destruct (negb (is_fair algorithm) && bool_decide (is_Some sm)).
Qed.

Lemma avoid_setAvoidImmediateRepeat this avoid :
  avoidImmediateRepeat (setAvoidImmediateRepeat this avoid) = avoid.
Proof. by destruct avoid. Qed.

Lemma selected_setAvoidImmediateRepeat this avoid :
  selectedStudents (setAvoidImmediateRepeat this avoid) =
  if avoid then selectedStudents this else ∅.
Proof. by destruct avoid. Qed.

Lemma avoid_record_selection this s pool :
  avoidImmediateRepeat (record_selection this s pool) = avoidImmediateRepeat this.
Proof.
  unfold record_selection. destruct (avoidImmediateRepeat this) eqn:Ha; simpl; [|done].
  by case_bool_decide.
Qed.

Lemma avoid_roundRobin this students :
  avoidImmediateRepeat (snd (roundRobin this students)) = avoidImmediateRepeat this.
Proof.
  unfold roundRobin. destruct students as [|a [|b rest]]; [done..|].
  case_bool_decide; [done|].
  by destruct (avoidImmediateRepeat this && _).
Qed.

Lemma avoid_dispatch this c pool algorithm options :
  avoidImmediateRepeat (snd (dispatch this c pool algorithm options)) =
  avoidImmediateRepeat this.
Proof. destruct algorithm; simpl; try done. apply avoid_roundRobin. Qed.

Lemma selected_roundRobin this students :
  selectedStudents (snd (roundRobin this students)) = selectedStudents this ∨
  selectedStudents (snd (roundRobin this students)) = ∅.
Proof.
  unfold roundRobin. destruct students as [|a [|b rest]]; [by left..|].
  case_bool_decide; [by left|].
  destruct (avoidImmediateRepeat this && _); [by right | by left].
Qed.

Lemma selected_dispatch this c pool algorithm options :
  selectedStudents (snd (dispatch this c pool algorithm options)) =
    selectedStudents this ∨
  selectedStudents (snd (dispatch this c pool algorithm options)) = ∅.
Proof. destruct algorithm; simpl; try (by left). apply selected_roundRobin. Qed.

Lemma filter_all_excluded (P : Student → bool) (students : list Student) :
  (∀ s, s ∈ students → P s = false) → filter (λ s, P s = true) students = [].
Proof.
  induction students as [|a rest IH]; intros Hall; [done|].
  rewrite filter_cons. case_decide as Ha.
  - rewrite Hall in Ha; [done | by left].
  - apply IH. intros s Hs. apply Hall. by right.
Qed.

(** ** C8: a roster that is excluded as a whole *)

(** C8. For every algorithm other than ['fair'], when the storage manager's
    [shouldExcludeStudent] holds of every roster entry, the awaited
    [selectStudent] yields [null]: neither the ['fair'] policy nor the
    unfiltered roster is used instead. *)
Theorem excluded_roster_yields_none
    (sm : StorageManager) (this : CallAlgorithm) (c : Chance)
    (students : list Student) (algorithm : Algorithm) (options : Options)
    (Hpolicy : algorithm ≠ Fair)
    (Hexcluded : ∀ s, s ∈ students → shouldExcludeStudent sm (id s) algorithm = true) :
  fst (selectStudent (Some sm) this c students algorithm options) = Return None.
Proof.
  destruct students as [|a rest]; [done|].
  rewrite selectStudent_eligible; [|done]. cbv zeta.
  rewrite eligible_filtered; [|done].
  rewrite filter_all_excluded.
  - by destruct algorithm.
  - intros s Hs. by rewrite (Hexcluded s Hs).
Qed.

Lemma excluded_roster_yields_none_witness :
  Weighted ≠ Fair ∧
  fst (selectStudent (Some exclude_everyone) constructor (constant_chance 0)
         scenario Weighted no_options) = Return None.
Proof.
  split; [discriminate|].
  apply (excluded_roster_yields_none exclude_everyone constructor
           (constant_chance 0) scenario Weighted no_options).
  - discriminate.
  - intros s Hs. reflexivity.
Defined.

(** ** C10: the flag is taken from the options at every call *)

(** C10 (counterexample). On an empty roster [selectStudent] returns before
    it touches the flag: an engine whose flag is on keeps it on although the
    options have no [avoidImmediateRepeat]. *)
Lemma flag_kept_on_empty_roster :
  avoidImmediateRepeat
    (snd (selectStudent None (setAvoidImmediateRepeat constructor true)
            (constant_chance 0) [] Fair no_options)) = true
  ∧ ¬ flag_follows_options.
Proof.
  split; [done|]. intros Hspec.
  specialize (Hspec None (setAvoidImmediateRepeat constructor true)
                (constant_chance 0) [] Fair no_options).
  discriminate Hspec.
Qed.

(** C10 (amended). Every call of [selectStudent] on a non-empty roster
    overwrites the flag [avoidImmediateRepeat] with the option of that name,
    [false] when it is absent; a call whose option is absent or [false]
    therefore leaves [selectedStudents] empty. *)
Theorem selectStudent_overwrites_flag
    (sm : option StorageManager) (this : CallAlgorithm) (c : Chance)
    (students : list Student) (algorithm : Algorithm) (options : Options)
    (Hroster : students ≠ []) :
  let this' := snd (selectStudent sm this c students algorithm options) in
  avoidImmediateRepeat this' = default false (opt_avoidImmediateRepeat options)
  ∧ (opt_avoidImmediateRepeat options ≠ Some true → selectedStudents this' = ∅).
Proof.
  cbv zeta. rewrite selectStudent_eligible; [|done]. cbv zeta.
  set (avoid := default false (opt_avoidImmediateRepeat options)).
  set (this1 := setAvoidImmediateRepeat this avoid).
  set (pool := eligible sm students algorithm).
  assert (Hflag : avoidImmediateRepeat this1 = avoid)
    by apply avoid_setAvoidImmediateRepeat.
  assert (Hset : avoid = false → selectedStudents this1 = ∅).
  { intros Hoff. unfold this1. by rewrite selected_setAvoidImmediateRepeat, Hoff. }
  assert (Hoff : opt_avoidImmediateRepeat options ≠ Some true → avoid = false).
  { unfold avoid. by destruct (opt_avoidImmediateRepeat options) as [[]|]. }
  destruct (negb (is_fair algorithm) && bool_decide (is_Some sm)
            && bool_decide (len pool = 0)); [by auto|].
  pose proof (avoid_dispatch this1 c pool algorithm options) as Hd.
  pose proof (selected_dispatch this1 c pool algorithm options) as Hs.
  destruct (dispatch this1 c pool algorithm options) as [outcome this2].
  simpl in *. rewrite Hflag in Hd.
  assert (Hset2 : avoid = false → selectedStudents this2 = ∅).
  { intros Ha. destruct Hs as [-> | ->]; auto. }
  destruct outcome as [[s|]|]; simpl; [|by auto..].
  split.
  - by rewrite avoid_record_selection.
  - intros Hopt. specialize (Hoff Hopt).
    unfold record_selection. rewrite Hd, Hoff. simpl. auto.
Qed.

Lemma selectStudent_overwrites_flag_witness :
  let this' :=
    snd (selectStudent None (setAvoidImmediateRepeat constructor true)
           (constant_chance 0) scenario Fair no_options) in
  scenario ≠ [] ∧ avoidImmediateRepeat this' = false ∧ selectedStudents this' = ∅.
Proof.
  pose proof (selectStudent_overwrites_flag None
                (setAvoidImmediateRepeat constructor true)
                (constant_chance 0) scenario Fair no_options) as H.
  split; [discriminate|].
  destruct H as [Hflag Hset]; [discriminate|].
  split; [exact Hflag | apply Hset; discriminate].
Defined.

(** ** C2: round robin without repeat avoidance *)

(** C2 (the code at the failing input). When the option
    [avoidImmediateRepeat] is absent or [false], [selectStudent] empties
    [selectedStudents] before it calls [roundRobin], which then takes the
    branch meant for the very first pick: on every engine state the first
    roster entry is returned, and three successive calls on the roster
    [A, B, C] yield [A, A, A], not [A, B, C]. *)
Theorem roundRobin_without_avoidance_repeats_first :
  (∀ this c first rest groupCount,
     fst (selectStudent None this c (first :: rest) RoundRobin
            (options_of None groupCount)) = Return (Some first)
     ∧ fst (selectStudent None this c (first :: rest) RoundRobin
              (options_of (Some false) groupCount)) = Return (Some first))
  ∧ map picked_id
      (fst (run None constructor
              [constant_chance 0; constant_chance 0; constant_chance 0]
              scenario RoundRobin no_options))
    = [Some 1; Some 1; Some 1].
Proof.
  split; [|by vm_compute].
  intros this c first rest groupCount.
  split; by destruct rest.
Qed.

(** ** C9: a group count below one *)

(** C9 (counterexample). With [groupCount] equal to -1 the call yields
    [null], already on a roster of one entry. *)
Lemma negative_group_count_yields_none :
  fst (selectStudent None constructor (constant_chance 0) [student 1 "A" 0] Group
         (options_of None (Some (-1)))) = Return None
  ∧ ¬ group_count_clamped.
Proof.
  split; [by vm_compute|]. intros Hspec.
  destruct (Hspec constructor (constant_chance 0) [student 1 "A" 0] None (-1))
    as (s & _ & Hs).
  - done.
  - done.
  - apply valid_constant_chance, valid_draw_zero.
  - vm_compute in Hs. discriminate Hs.
Qed.

Lemma js_index_nil {A} (k : Z) : js_index (@nil A) k = None.
Proof. unfold js_index. by case_bool_decide. Qed.

Lemma random_element_nil {A} (r : Q) : random_element r (@nil A) = None.
Proof. apply js_index_nil. Qed.

Lemma groupRandom_negative this c students groupCount :
  groupCount < 0 → groupRandom this c students groupCount = None.
Proof.
  intros Hneg. unfold groupRandom.
  destruct students as [|a rest]; [done|].
  rewrite bool_decide_eq_false_2; [|unfold len; lia].
  unfold groups_of. destruct groupCount as [|p|p]; [lia..|].
  simpl. by rewrite random_element_nil.
Qed.

(** C9 (amended). [selectStudent] does not clamp [groupCount]: the value 0
    is replaced by the default 3, and a negative value is handed to
    [groupRandom] as it is, which then forms no group and returns [null];
    the call yields [null] and does not throw. *)
Theorem group_count_not_clamped
    (sm : option StorageManager) (this : CallAlgorithm) (c : Chance)
    (students : list Student) (avoid : option bool) (groupCount : Z)
    (Hnegative : groupCount < 0) :
  fst (selectStudent sm this c students Group (options_of avoid (Some groupCount)))
    = Return None
  ∧ selectStudent sm this c students Group (options_of avoid (Some 0))
    = selectStudent sm this c students Group (options_of avoid (Some 3)).
Proof.
  split; [|done].
  destruct students as [|a rest]; [done|].
  rewrite selectStudent_eligible; [|done]. cbv zeta.
  destruct (negb (is_fair Group) && bool_decide (is_Some sm) && _); [done|].
  simpl. rewrite groupRandom_negative; [done|].
  by destruct groupCount.
Qed.

Lemma group_count_not_clamped_witness :
  -2 < 0 ∧
  fst (selectStudent None constructor (constant_chance 0) scenario Group
         (options_of None (Some (-2)))) = Return None.
Proof.
  split; [lia|].
  apply (group_count_not_clamped None constructor (constant_chance 0) scenario
           None (-2)).
  lia.
Defined.

(** ** C1: a call on a non-empty roster that yields nothing *)

Lemma randomIndex_last_third (r : Q) :
  (2 # 3 <= r)%Q → (r < 1)%Q → randomIndex r 3 = 2.
Proof.
  intros Hlow Hhigh. unfold randomIndex.
  set (x := (r * inject_Z (Z.of_nat 3))%Q).
  assert (Hx : (2 <= x)%Q ∧ (x < 3)%Q).
  { unfold x. change (inject_Z (Z.of_nat 3)) with 3%Q. split; lra. }
  destruct Hx as [Hx2 Hx3].
  pose proof (Qfloor_le x) as Hfloor. pose proof (Qlt_floor x) as Hceil.
  assert (Hupper : Qfloor x < 3).
  { rewrite Zlt_Qlt. change (inject_Z 3) with 3%Q. lra. }
  assert (Hlower : 2 < Qfloor x + 1).
  { rewrite Zlt_Qlt. change (inject_Z 2) with 2%Q. lra. }
  lia.
Qed.

(** C1 (the code at the failing input). With four roster entries and three
    groups, the default, [groupRandom] cuts groups of two entries, so that
    the third group is empty whatever the shuffle; when the draw for the
    group index is 2/3 or more, [fairRandom] is given that empty group and
    [selectStudent] yields [null] on a non-empty roster. *)
Theorem group_policy_yields_none_on_four
    (this : CallAlgorithm) (c : Chance) (s1 s2 s3 s4 : Student)
    (avoid : option bool)
    (Hlow : (2 # 3 <= random c 0)%Q) (Hhigh : (random c 0 < 1)%Q) :
  fst (selectStudent None this c [s1; s2; s3; s4] Group (options_of avoid None))
    = Return None
  ∧ fst (selectStudent None this c [s1; s2; s3; s4] Group
           (options_of avoid (Some 3))) = Return None.
Proof.
  assert (Hgroup : ∀ engine, groupRandom engine c [s1; s2; s3; s4] 3 = None).
  { intros engine. unfold groupRandom.
    change (len [s1; s2; s3; s4]) with 4.
    rewrite bool_decide_eq_false_2; [|lia].
    set (shuffled := shuffle c [s1; s2; s3; s4]).
    change (groups_of shuffled 4 3)
      with [slice shuffled 0 2; slice shuffled 2 4; slice shuffled 4 4].
    unfold random_element. change (length _) with 3%nat.
    by rewrite randomIndex_last_third. }
  split; unfold selectStudent; cbn [is_fair negb andb dispatch fst snd];
    cbn [options_of opt_groupCount or_default]; by rewrite Hgroup.
Qed.

Lemma group_policy_yields_none_on_four_witness :
  (2 # 3 <= random (constant_chance (9 # 10)) 0)%Q ∧
  (random (constant_chance (9 # 10)) 0 < 1)%Q ∧
  valid_chance (constant_chance (9 # 10)) ∧
  fst (selectStudent None constructor (constant_chance (9 # 10)) four_students
         Group no_options) = Return None.
Proof.
  assert (Hlow : (2 # 3 <= random (constant_chance (9 # 10)) 0)%Q)
    by discriminate.
  assert (Hhigh : (random (constant_chance (9 # 10)) 0 < 1)%Q) by reflexivity.
  split; [exact Hlow|]. split; [exact Hhigh|].
  split; [apply valid_constant_chance; by split|].
  exact (proj1 (group_policy_yields_none_on_four constructor
                  (constant_chance (9 # 10))
                  (student 1 "A" 0) (student 2 "B" 0) (student 3 "C" 0)
                  (student 4 "D" 0) None Hlow Hhigh)).
Defined.

(** ** C5: batch selection *)

(** C5 (the code at the failing input). [selectMultipleStudents] does not
    await [selectStudent]: what it collects are promises, and as a promise
    has no [id] no entry ever leaves the pool.  Every call of [selectStudent]
    moreover sets the flag from the options again.  With two entries asked
    of the scenario roster under ['fair'], no options and draws equal to 0,
    both promises are settled with the entry whose id is 1.  What does hold
    on every input is that the flag of the caller is restored. *)
Theorem selectMultipleStudents_repeats :
  fst (selectMultipleStudents None constructor (λ _, constant_chance 0) scenario 2
         Fair no_options)
  = [Settled (Return (Some (student 1 "A" 5)));
     Settled (Return (Some (student 1 "A" 5)))]
  ∧ ∀ sm this cs students count algorithm options,
      avoidImmediateRepeat
        (snd (selectMultipleStudents sm this cs students count algorithm options))
      = avoidImmediateRepeat this.
Proof.
  split; [by vm_compute|].
  intros sm this cs students count algorithm options.
  unfold selectMultipleStudents.
  destruct (bool_decide (len students = 0) || bool_decide (count ≤ 0)); [done|].
  cbn [snd]. apply avoid_setAvoidImmediateRepeat.
Qed.

(** ** Random indices *)

Lemma randomIndex_range (r : Q) (n : nat) :
  valid_draw r → (0 < n)%nat → 0 ≤ randomIndex r n < Z.of_nat n.
Proof.
  intros [Hlow Hhigh] Hn. unfold randomIndex.
  set (m := inject_Z (Z.of_nat n)).
  assert (Hm : (0 < m)%Q).
  { unfold m. change 0%Q with (inject_Z 0). rewrite <- Zlt_Qlt. lia. }
  split.
  - change 0 with (Qfloor 0). apply Qfloor_resp_le. nra.
  - rewrite Zlt_Qlt. fold m.
    apply Qle_lt_trans with (r * m)%Q; [apply Qfloor_le | nra].
Qed.

Lemma js_index_elem_of {A} (arr : list A) (k : Z) (x : A) :
  js_index arr k = Some x → x ∈ arr.
Proof.
  unfold js_index. case_bool_decide; [|done].
  intros Hx. by eapply list_elem_of_lookup_2.
Qed.

Lemma random_element_elem_of {A} (r : Q) (arr : list A) (x : A) :
  random_element r arr = Some x → x ∈ arr.
Proof. apply js_index_elem_of. Qed.

Lemma random_element_is_Some {A} (r : Q) (arr : list A) :
  valid_draw r → arr ≠ [] → is_Some (random_element r arr).
Proof.
  intros Hr Hne. unfold random_element, js_index.
  destruct (randomIndex_range r (length arr) Hr) as [Hlow Hhigh].
  { destruct arr; [done | simpl; lia]. }
  rewrite bool_decide_eq_true_2; [|done].
  apply lookup_lt_is_Some. lia.
Qed.

Lemma draw_for_valid (i n : nat) : (i < n)%nat → valid_draw (draw_for i n).
Proof.
  intros Hi. unfold valid_draw, draw_for, Qle, Qlt. simpl.
  rewrite !Z.mul_1_r. split; [lia|].
  destruct n; [lia|]. rewrite <- Pos.of_nat_succ. lia.
Qed.

Lemma draw_for_index (i n : nat) :
  (i < n)%nat → randomIndex (draw_for i n) n = Z.of_nat i.
Proof.
  intros Hi. unfold randomIndex.
  rewrite <- (Qfloor_Z (Z.of_nat i)). apply Qfloor_comp.
  unfold draw_for, Qeq. simpl.
  destruct n; [lia|]. rewrite <- Pos.of_nat_succ. lia.
Qed.

Lemma random_element_draw_for {A} (arr : list A) (i : nat) (x : A) :
  arr !! i = Some x → random_element (draw_for i (length arr)) arr = Some x.
Proof.
  intros Hx. unfold random_element, js_index.
  rewrite draw_for_index; [|by eapply lookup_lt_Some].
  rewrite bool_decide_eq_true_2; [|lia].
  by rewrite Nat2Z.id.
Qed.

(** ** C7: the fair policy *)

Lemma set_size_nonneg this : 0 ≤ set_size this.
Proof. unfold set_size. lia. Qed.

Lemma random_element_singleton {A} (r : Q) (x : A) :
  valid_draw r → random_element r [x] = Some x.
Proof.
  intros Hr. unfold random_element, js_index.
  destruct (randomIndex_range r 1 Hr) as [Hlow Hhigh]; [lia|].
  simpl length. replace (randomIndex r 1) with 0 by lia. done.
Qed.

Lemma fairRandom_pool this r students :
  valid_draw r →
  fairRandom this r students = random_element r (fair_pool this students).
Proof.
  intros Hr. unfold fair_pool. destruct students as [|a [|b rest]].
  - simpl. destruct (_ && _ && _); symmetry; apply random_element_nil.
  - pose proof (set_size_nonneg this).
    rewrite (bool_decide_eq_false_2 (set_size this < len [a] - 1));
      [|unfold len; simpl; lia].
    rewrite andb_false_r. simpl. by rewrite random_element_singleton.
  - unfold fairRandom. by destruct (_ && _ && _).
Qed.

Lemma selectStudent_fair sm this c students options :
  students ≠ [] →
  selectStudent sm this c students Fair options =
  let this1 :=
    setAvoidImmediateRepeat this
      (default false (opt_avoidImmediateRepeat options)) in
  match fairRandom this1 (random c 0) students with
  | Some s => (Return (Some s), record_selection this1 s students)
  | None => (Return None, this1)
  end.
Proof.
  intros Hne. destruct students as [|a rest]; [done|].
  unfold selectStudent. cbn [is_fair negb andb dispatch fst snd].
  by destruct (fairRandom _ _ _).
Qed.

(** C7 (counterexample). After a first pick of the entry with id 1 under
    repeat avoidance, the next call under ['fair'] cannot return that
    entry. *)
Lemma fair_filters_chosen_entries :
  picked_id
    (fst (selectStudent None constructor (constant_chance 0) scenario Fair
            avoid_repeat)) = Some 1
  ∧ ¬ fair_reaches_every_entry.
Proof.
  split; [by vm_compute|]. intros Hspec.
  pose (this :=
    snd (selectStudent None constructor (constant_chance 0) scenario Fair
           avoid_repeat)).
  destruct (Hspec None this scenario avoid_repeat (student 1 "A" 5))
    as (c & _ & Hc).
  { by left. }
  rewrite selectStudent_fair in Hc; [|done]. cbv zeta in Hc.
  destruct (fairRandom _ _ _) as [s|] eqn:Hs; [|done].
  simpl in Hc. injection Hc as ->.
  apply random_element_elem_of in Hs.
  vm_compute in Hs. 
  repeat (apply elem_of_cons in Hs as [Hs|Hs]; [discriminate Hs|]).
  by apply elem_of_nil in Hs.
Qed.

Lemma Qfloor_unique (x : Q) (i : Z) :
  (inject_Z i <= x)%Q → (x < inject_Z i + 1)%Q → Qfloor x = i.
Proof.
  intros Hlow Hhigh.
  assert (i ≤ Qfloor x).
  { rewrite <- (Qfloor_Z i). by apply Qfloor_resp_le. }
  assert (Qfloor x < i + 1).
  { rewrite Zlt_Qlt, inject_Z_plus. change (inject_Z 1) with 1%Q.
    apply Qle_lt_trans with x; [apply Qfloor_le | done]. }
  lia.
Qed.

Lemma rounding_margin_positive (n : Z) : 0 < n → (0 < rounding_margin n)%Q.
Proof.
  intros Hn. unfold rounding_margin.
  assert (0 < inject_Z n)%Q.
  { change 0%Q with (inject_Z 0). by rewrite <- Zlt_Qlt. }
  nra.
Qed.

(** C7 (amended). Under ['fair'] the storage manager is not consulted, and
    the entry returned is an entry of a pool: the one at index [i] whenever
    the product [r * length] of the draw with the length of the pool is at
    least [i] and at most [i + 1 - length * 2^-53], so that
    [Math.floor(r * length)] is [i] also for the product in double
    precision.  The pool is the whole roster when repeat avoidance is off,
    so that every roster entry is then a possible outcome; when repeat
    avoidance is on, [selectedStudents] holds fewer than [length - 1] ids and
    some entry has an id that is not in it, the pool is restricted to the
    entries whose id is not in [selectedStudents]. *)
Theorem fair_policy_pool
    (sm : option StorageManager) (this : CallAlgorithm) (c : Chance)
    (students : list Student) (options : Options)
    (Hchance : valid_chance c) (Hroster : students ≠ []) :
  let this1 :=
    setAvoidImmediateRepeat this
      (default false (opt_avoidImmediateRepeat options)) in
  let pool := fair_pool this1 students in
  let product := (random c 0 * inject_Z (len pool))%Q in
  selectStudent sm this c students Fair options
    = selectStudent None this c students Fair options
  ∧ (∃ s, s ∈ pool
          ∧ fst (selectStudent sm this c students Fair options) = Return (Some s))
  ∧ (∀ (i : nat) s,
       pool !! i = Some s →
       (inject_Z (Z.of_nat i) <= product)%Q →
       (product + rounding_margin (len pool) <= inject_Z (Z.of_nat i) + 1)%Q →
       fst (selectStudent sm this c students Fair options) = Return (Some s))
  ∧ (opt_avoidImmediateRepeat options ≠ Some true → pool = students)
  ∧ (avoidImmediateRepeat this1 = true →
     set_size this1 < len students - 1 →
     (∃ e, e ∈ students ∧ id e ∉ selectedStudents this) →
     pool = filter (λ s, id s ∉ selectedStudents this) students)
  ∧ (∀ e, e ∈ pool →
       ∃ c', valid_chance c' ∧
             fst (selectStudent sm this c' students Fair options) = Return (Some e)).
Proof.
  cbv zeta.
  set (this1 := setAvoidImmediateRepeat this _).
  assert (Hpool_ne : fair_pool this1 students ≠ []).
  { unfold fair_pool. destruct (avoidImmediateRepeat this1 && _) ; simpl; [|done].
    case_bool_decide as Hlen; [|done]. intros Hnil. rewrite Hnil in Hlen.
    unfold len in Hlen. simpl in Hlen. lia. }
  assert (Hresult :
            fst (selectStudent sm this c students Fair options)
            = match random_element (random c 0) (fair_pool this1 students) with
              | Some s => Return (Some s)
              | None => Return None
              end).
  { rewrite selectStudent_fair; [|done]. cbv zeta. fold this1.
    rewrite fairRandom_pool; [|apply Hchance].
    by destruct (random_element _ _). }
  split; [|split; [|split; [|split; [|split]]]].
  - by rewrite !selectStudent_fair.
  - destruct Hchance as [Hdraw _].
    destruct (random_element_is_Some (random c 0) _ (Hdraw 0%nat) Hpool_ne)
      as [s Hs].
    exists s. split; [by eapply random_element_elem_of|].
    by rewrite Hresult, Hs.
  - intros i s Hi Hlow Hhigh. rewrite Hresult.
    assert (Hmargin : (0 < rounding_margin (len (fair_pool this1 students)))%Q).
    { apply rounding_margin_positive. apply lookup_lt_Some in Hi.
      unfold len. lia. }
    unfold random_element, js_index, randomIndex.
    fold (len (fair_pool this1 students)).
    rewrite (Qfloor_unique _ (Z.of_nat i)); [|done|lra].
    rewrite bool_decide_eq_true_2; [|lia].
    by rewrite Nat2Z.id, Hi.
  - intros Hoff. unfold fair_pool, this1.
    rewrite avoid_setAvoidImmediateRepeat.
    by destruct (opt_avoidImmediateRepeat options) as [[]|].
  - intros Havoid Hsize (e & He & Hfree). unfold fair_pool. rewrite Havoid.
    rewrite (bool_decide_eq_true_2 _ Hsize). simpl.
    assert (Hsame : filter (λ s, negb (has this1 s) = true) students
                    = filter (λ s, id s ∉ selectedStudents this) students).
    { apply list_filter_iff. intros s. unfold has.
      replace (selectedStudents this1) with (selectedStudents this).
      - rewrite negb_true_iff, bool_decide_eq_false. done.
      - unfold this1. rewrite selected_setAvoidImmediateRepeat.
        unfold this1 in Havoid. rewrite avoid_setAvoidImmediateRepeat in Havoid.
        by rewrite Havoid. }
    rewrite Hsame. case_bool_decide as Hlen; [done|].
    assert (Hin : e ∈ filter (λ s, id s ∉ selectedStudents this) students)
      by (by apply list_elem_of_filter).
    apply list_elem_of_lookup in Hin as [i Hi]. apply lookup_lt_Some in Hi.
    unfold len in Hlen. lia.
  - intros e He. apply list_elem_of_lookup in He as [i Hi].
    set (r := draw_for i (length (fair_pool this1 students))).
    assert (Hr : valid_draw r).
    { apply draw_for_valid. by eapply lookup_lt_Some. }
    exists {| random := λ _, r; shuffle := shuffle c; clock := clock c |}.
    split; [split; [done | apply Hchance]|].
    rewrite selectStudent_fair; [|done]. cbv zeta. fold this1. simpl.
    rewrite fairRandom_pool; [|done].
    unfold r. by rewrite (random_element_draw_for _ _ _ Hi).
Qed.

Lemma fair_policy_pool_witness :
  valid_chance (constant_chance (1 # 2)) ∧ scenario ≠ [] ∧
  fst (selectStudent None constructor (constant_chance (1 # 2)) scenario Fair
         no_options)
    = Return (Some (student 2 "B" 0)).
Proof.
  assert (Hvalid : valid_chance (constant_chance (1 # 2)))
    by (apply valid_constant_chance; split; by vm_compute).
  assert (Hroster : scenario ≠ []) by discriminate.
  split; [exact Hvalid|]. split; [exact Hroster|].
  destruct (fair_policy_pool None constructor (constant_chance (1 # 2)) scenario
              no_options Hvalid Hroster) as (_ & _ & Hindex & _).
  apply (Hindex 1%nat); [reflexivity | by vm_compute | by vm_compute].
Defined.

(** ** Sorting and minima *)

Lemma sort_insert_perm {A} (cmp : A → A → Q) (x : A) (sorted : list A) :
  sort_insert cmp x sorted ≡ₚ x :: sorted.
Proof.
  induction sorted as [|y rest IH]; simpl; [done|].
  destruct (Qle_bool (cmp x y) 0); [done|].
  rewrite IH. apply Permutation_swap.
Qed.

Lemma js_sort_perm {A} (cmp : A → A → Q) (arr : list A) :
  js_sort cmp arr ≡ₚ arr.
Proof.
  induction arr as [|x rest IH]; simpl; [done|].
  rewrite sort_insert_perm. by rewrite IH.
Qed.

Lemma foldl_min_spec (rest : list Z) (x : Z) :
  let m := foldl Z.min x rest in
  (m = x ∨ m ∈ rest) ∧ m ≤ x ∧ ∀ y, y ∈ rest → m ≤ y.
Proof.
  revert x. induction rest as [|z rest IH]; intros x; simpl.
  - split; [by left|]. split; [lia|]. intros y Hy. by apply elem_of_nil in Hy.
  - destruct (IH (Z.min x z)) as (Hmem & Hle & Hall).
    split; [|split].
    + destruct Hmem as [Hm | Hm].
      * destruct (Z.min_spec x z) as [[_ Hmin] | [_ Hmin]].
        -- left. by rewrite Hm.
        -- right. rewrite Hm, Hmin. by left.
      * right. by right.
    + lia.
    + intros y Hy. apply elem_of_cons in Hy as [-> | Hy]; [lia | by apply Hall].
Qed.

Lemma Math_min_elem_of (xs : list Z) : xs ≠ [] → Math_min xs ∈ xs.
Proof.
  destruct xs as [|x rest]; [done|]. intros _. simpl.
  destruct (foldl_min_spec rest x) as ([Hm | Hm] & _).
  - rewrite Hm. by left.
  - by right.
Qed.

Lemma Math_min_le (xs : list Z) (y : Z) : y ∈ xs → Math_min xs ≤ y.
Proof.
  destruct xs as [|x rest]; [intros Hy; by apply elem_of_nil in Hy|].
  simpl. destruct (foldl_min_spec rest x) as (_ & Hle & Hall).
  intros Hy. apply elem_of_cons in Hy as [-> | Hy]; [done | by apply Hall].
Qed.

Lemma Math_min_perm (xs ys : list Z) : xs ≡ₚ ys → Math_min xs = Math_min ys.
Proof.
  intros Hperm. destruct xs as [|x xs'].
  - apply Permutation_nil in Hperm. by subst.
  - assert (Hys : ys ≠ []).
    { intros ->. symmetry in Hperm. by apply Permutation_nil in Hperm. }
    assert (Hxs : x :: xs' ≠ []) by done.
    pose proof (Math_min_elem_of _ Hxs) as H1.
    pose proof (Math_min_elem_of _ Hys) as H2.
    apply (elem_of_Permutation_proper _ _ _ Hperm) in H1.
    apply (elem_of_Permutation_proper _ _ _ Hperm) in H2.
    apply Math_min_le in H1. apply Math_min_le in H2. lia.
Qed.

(** ** C6: the least called entries *)

Lemma leastCalledStudents_pick (r : Q) (arr : list Student) :
  valid_draw r → arr ≠ [] →
  ∃ s, random_element r (leastCalledStudents arr) = Some s
       ∧ s ∈ arr ∧ counted s = Math_min (map counted arr).
Proof.
  intros Hr Hne.
  assert (Hsome : leastCalledStudents arr ≠ []).
  { assert (Hmin : Math_min (map counted arr) ∈ map counted arr).
    { apply Math_min_elem_of. by destruct arr. }
    apply list_elem_of_In, in_map_iff in Hmin as (s & Hs & Hin).
    apply list_elem_of_In in Hin.
    assert (Hsel : s ∈ leastCalledStudents arr)
      by (by apply list_elem_of_filter).
    intros Hnil. rewrite Hnil in Hsel. by apply elem_of_nil in Hsel. }
  destruct (random_element_is_Some r _ Hr Hsome) as [s Hs].
  exists s. split; [done|].
  apply random_element_elem_of in Hs.
  by apply list_elem_of_filter in Hs as [Hcount Hin].
Qed.

Lemma len_perm {A} (xs ys : list A) : xs ≡ₚ ys → len xs = len ys.
Proof. intros Hperm. unfold len. by rewrite Hperm. Qed.

Lemma leastCalledFirst_minimum this r students :
  valid_draw r → students ≠ [] →
  ∃ s, leastCalledFirst this r students = Some s
       ∧ s ∈ leastCalled_pool this students
       ∧ counted s = Math_min (map counted (leastCalled_pool this students)).
Proof.
  intros Hr Hne. destruct students as [|a [|b rest]]; [done| |].
  - exists a. split; [done|].
    unfold leastCalled_pool. rewrite filter_cons, filter_nil.
    case_decide; simpl.
    + destruct (avoidImmediateRepeat this); simpl; split; by try left.
    + rewrite andb_false_r. split; by try left.
  - set (students := a :: b :: rest).
    set (sorted := js_sort (leastCalled_compare this) students).
    assert (Hsorted : sorted ≡ₚ students) by apply js_sort_perm.
    set (unselected := filter (λ s, negb (has this s) = true) sorted).
    set (unchosen := filter (λ s, negb (has this s) = true) students).
    assert (Hunsel : unselected ≡ₚ unchosen).
    { unfold unselected, unchosen. by rewrite Hsorted. }
    set (pool' := if avoidImmediateRepeat this && bool_decide (len unselected > 0)
                  then unselected else sorted).
    assert (Hpool : pool' ≡ₚ leastCalled_pool this students).
    { unfold pool', leastCalled_pool. fold unchosen.
      rewrite (len_perm _ _ Hunsel).
      destruct (avoidImmediateRepeat this && bool_decide (len unchosen > 0));
        [exact Hunsel | exact Hsorted]. }
    assert (Hne' : pool' ≠ []).
    { unfold pool'. destruct (avoidImmediateRepeat this); simpl.
      - case_bool_decide as Hlen.
        + intros Hnil. rewrite Hnil in Hlen. unfold len in Hlen. simpl in Hlen. lia.
        + intros Hnil. rewrite Hnil in Hsorted.
          by apply Permutation_nil in Hsorted.
      - intros Hnil. rewrite Hnil in Hsorted. by apply Permutation_nil in Hsorted. }
    destruct (leastCalledStudents_pick r pool' Hr Hne') as (s & Hs & Hin & Hcount).
    exists s. split; [|split].
    + unfold leastCalledFirst. fold students sorted unselected.
      unfold pool' in Hs.
      by destruct (avoidImmediateRepeat this && bool_decide (len unselected > 0)).
    + by rewrite <- Hpool.
    + rewrite Hcount. apply Math_min_perm. by apply Permutation_map.
Qed.

Lemma eligible_nonempty_roster sm students algorithm :
  eligible sm students algorithm ≠ [] → students ≠ [].
Proof. intros Hne ->. apply Hne. unfold eligible. by destruct sm, algorithm. Qed.

(** [selectStudent] when some roster entry is eligible. *)
Lemma selectStudent_dispatch sm this c students algorithm options :
  eligible sm students algorithm ≠ [] →
  selectStudent sm this c students algorithm options =
  let this1 :=
    setAvoidImmediateRepeat this
      (default false (opt_avoidImmediateRepeat options)) in
  let pool := eligible sm students algorithm in
  let result := dispatch this1 c pool algorithm options in
  match fst result with
  | Return (Some selectedStudent) =>
      (Return (Some selectedStudent),
       record_selection (snd result) selectedStudent pool)
  | outcome => (outcome, snd result)
  end.
Proof.
  intros Hne. rewrite selectStudent_eligible;
    [|by eapply eligible_nonempty_roster].
  cbv zeta.
  rewrite (bool_decide_eq_false_2 (len (eligible sm students algorithm) = 0)).
  - by rewrite andb_false_r.
  - unfold len. destruct (eligible sm students algorithm); [done | simpl; lia].
Qed.

(** C6 (counterexample). With repeat avoidance on, the second pick on the
    scenario roster is the entry with id 3 and two calls, although an
    eligible entry has none. *)
Lemma leastCalled_skips_chosen_minimum :
  map picked_id
    (fst (run None constructor [constant_chance 0; constant_chance 0] scenario
            LeastCalled avoid_repeat)) = [Some 2; Some 3]
  ∧ ¬ leastCalled_returns_minimum.
Proof.
  split; [by vm_compute|]. intros Hspec.
  pose (this :=
    snd (selectStudent None constructor (constant_chance 0) scenario LeastCalled
           avoid_repeat)).
  specialize (Hspec None this (constant_chance 0) scenario avoid_repeat
                (student 3 "C" 2)).
  vm_compute in Hspec.
  assert (Habsurd : 2 = 0); [|discriminate Habsurd].
  apply Hspec; [|reflexivity].
  split; [intros _; split; [discriminate | reflexivity] | done].
Qed.

Lemma leastCalled_outcome sm this c students options :
  valid_chance c → eligible sm students LeastCalled ≠ [] →
  let this1 :=
    setAvoidImmediateRepeat this
      (default false (opt_avoidImmediateRepeat options)) in
  let pool := leastCalled_pool this1 (eligible sm students LeastCalled) in
  ∃ s, fst (selectStudent sm this c students LeastCalled options) = Return (Some s)
       ∧ s ∈ pool ∧ counted s = Math_min (map counted pool).
Proof.
  intros [Hdraw _] Hne. cbv zeta.
  rewrite selectStudent_dispatch; [|done]. cbv zeta.
  set (this1 := setAvoidImmediateRepeat this _).
  destruct (leastCalledFirst_minimum this1 (random c 0)
              (eligible sm students LeastCalled) (Hdraw 0%nat) Hne)
    as (s & Hs & Hin & Hcount).
  exists s. cbn [dispatch fst snd]. rewrite Hs. done.
Qed.

Lemma leastCalled_pool_without_avoidance this students :
  avoidImmediateRepeat this = false → leastCalled_pool this students = students.
Proof. intros Hoff. unfold leastCalled_pool. by rewrite Hoff. Qed.

(** C6 (amended). Under ['leastCalled'] the entry returned has the least
    call count of a pool: the eligible entries when repeat avoidance is off,
    and, when it is on, the eligible entries whose id is not in
    [selectedStudents], as long as there is one.  On the scenario roster,
    without exclusions and with repeat avoidance off, the entry with id 2 is
    returned whatever the engine state and the draw. *)
Theorem leastCalled_returns_pool_minimum
    (sm : option StorageManager) (this : CallAlgorithm) (c : Chance)
    (students : list Student) (options : Options)
    (Hchance : valid_chance c)
    (Heligible : eligible sm students LeastCalled ≠ []) :
  let this1 :=
    setAvoidImmediateRepeat this
      (default false (opt_avoidImmediateRepeat options)) in
  let pool := leastCalled_pool this1 (eligible sm students LeastCalled) in
  (∃ s, fst (selectStudent sm this c students LeastCalled options) = Return (Some s)
        ∧ s ∈ pool ∧ counted s = Math_min (map counted pool))
  ∧ (opt_avoidImmediateRepeat options ≠ Some true →
     pool = eligible sm students LeastCalled)
  ∧ (opt_avoidImmediateRepeat options = Some true →
     (∃ e, e ∈ eligible sm students LeastCalled ∧ id e ∉ selectedStudents this) →
     pool = filter (λ s, id s ∉ selectedStudents this)
              (eligible sm students LeastCalled))
  ∧ (∀ engine avoid groupCount,
       avoid ≠ Some true →
       fst (selectStudent None engine c scenario LeastCalled
              (options_of avoid groupCount)) = Return (Some (student 2 "B" 0))).
Proof.
  cbv zeta. split; [by apply leastCalled_outcome|]. split; [|split].
  - intros Hoff. apply leastCalled_pool_without_avoidance.
    rewrite avoid_setAvoidImmediateRepeat.
    by destruct (opt_avoidImmediateRepeat options) as [[]|].
  - intros Hon (e & He & Hfree). rewrite Hon.
    change (default false (Some true)) with true.
    unfold leastCalled_pool. rewrite avoid_setAvoidImmediateRepeat.
    assert (Hsame :
      filter (λ s, negb (has (setAvoidImmediateRepeat this true) s) = true)
        (eligible sm students LeastCalled)
      = filter (λ s, id s ∉ selectedStudents this)
          (eligible sm students LeastCalled)).
    { apply list_filter_iff. intros s. unfold has. simpl.
      by rewrite negb_true_iff, bool_decide_eq_false. }
    rewrite Hsame. clear Hsame. rewrite bool_decide_eq_true_2; [done|].
    assert (Hin : e ∈ filter (λ s, id s ∉ selectedStudents this)
                        (eligible sm students LeastCalled))
      by (by apply list_elem_of_filter).
    apply list_elem_of_lookup in Hin as [i Hi]. apply lookup_lt_Some in Hi.
    unfold len. lia.
  - intros engine avoid groupCount Hoff.
    destruct (leastCalled_outcome None engine c scenario
                (options_of avoid groupCount) Hchance)
      as (s & Hs & Hin & Hcount); [done|].
    rewrite Hs. rewrite leastCalled_pool_without_avoidance in Hin, Hcount.
    2,3: rewrite avoid_setAvoidImmediateRepeat; by destruct avoid as [[]|].
    rewrite eligible_no_storage in Hin, Hcount.
    change (Math_min (map counted scenario)) with 0 in Hcount.
    repeat (apply elem_of_cons in Hin as [-> | Hin]; [by try discriminate Hcount|]).
    by apply elem_of_nil in Hin.
Qed.

Lemma leastCalled_returns_pool_minimum_witness :
  valid_chance (constant_chance 0) ∧
  eligible None scenario LeastCalled ≠ [] ∧
  fst (selectStudent None constructor (constant_chance 0) scenario LeastCalled
         no_options) = Return (Some (student 2 "B" 0)).
Proof.
  assert (Hvalid : valid_chance (constant_chance 0))
    by apply valid_constant_chance, valid_draw_zero.
  assert (Heligible : eligible None scenario LeastCalled ≠ []) by discriminate.
  split; [exact Hvalid|]. split; [exact Heligible|].
  destruct (leastCalled_returns_pool_minimum None constructor (constant_chance 0)
              scenario no_options Hvalid Heligible) as (_ & _ & _ & Hscenario).
  apply (Hscenario constructor None None). discriminate.
Defined.

(** ** C4: the weighted policy *)

(** C4 (counterexample). After the entry with id 1 of a roster of two has
    been picked under repeat avoidance, the weight of the other entry is not
    doubled. *)
Lemma last_unchosen_weight_not_doubled :
  map snd
    (studentsWithWeights
       (snd (selectStudent None constructor (constant_chance 0) two_students
               Weighted avoid_repeat))
       two_students) = [1; 1]
  ∧ ¬ weights_as_specified.
Proof.
  split; [by vm_compute|]. intros Hspec.
  pose (this :=
    snd (selectStudent None constructor (constant_chance 0) two_students
           Weighted avoid_repeat)).
  specialize (Hspec this two_students).
  vm_compute in Hspec.
  assert (Habsurd : [1; 1] = [1; 2]) by (apply Hspec; lia).
  discriminate Habsurd.
Qed.

Lemma foldl_weight_shift (items : list (Student * Z)) (a : Z) :
  foldl (λ sum item, sum + snd item) a items
  = a + foldl (λ sum item, sum + snd item) 0 items.
Proof.
  revert a. induction items as [|item rest IH]; intros a; simpl; [lia|].
  rewrite (IH (a + snd item)), (IH (0 + snd item)). lia.
Qed.

Lemma totalWeight_cons item items :
  totalWeight (item :: items) = snd item + totalWeight items.
Proof. unfold totalWeight. simpl. by rewrite foldl_weight_shift. Qed.

Lemma remainder_cons item rest random j :
  (remainder (item :: rest) random (S j)
   == remainder rest (random - inject_Z (snd item)) j)%Q.
Proof.
  unfold remainder. simpl take. rewrite totalWeight_cons, inject_Z_plus. ring.
Qed.

(** [walk] stops at the first item at which the remainder is not positive. *)
Lemma walk_spec (items : list (Student * Z)) (random : Q) :
  match walk items random with
  | Some s =>
      ∃ k item, items !! k = Some item ∧ fst item = s
                ∧ (remainder items random (S k) <= 0)%Q
                ∧ ∀ j, (j < k)%nat → (0 < remainder items random (S j))%Q
  | None =>
      ∀ j, (j < length items)%nat → (0 < remainder items random (S j))%Q
  end.
Proof.
  revert random. induction items as [|item rest IH]; intros random; simpl.
  - intros j Hj. lia.
  - destruct (Qle_bool (random - inject_Z (snd item)) 0) eqn:Hstop.
    + exists 0%nat, item. split; [done|]. split; [done|]. split; [|intros j Hj; lia].
      rewrite remainder_cons. unfold remainder. simpl.
      apply Qle_bool_iff in Hstop. unfold totalWeight. simpl.
      change (inject_Z 0) with 0%Q. lra.
    + assert (Hpos : (0 < random - inject_Z (snd item))%Q).
      { apply Qnot_le_lt. intros Hle. apply Qle_bool_iff in Hle. congruence. }
      specialize (IH (random - inject_Z (snd item))%Q).
      destruct (walk rest (random - inject_Z (snd item))) as [s|].
      * destruct IH as (k & found & Hk & Hfst & Hstop' & Hbefore).
        exists (S k), found. split; [done|]. split; [done|]. split.
        -- by rewrite remainder_cons.
        -- intros [|j] Hj.
           ++ rewrite remainder_cons. unfold remainder, totalWeight. simpl.
              change (inject_Z 0) with 0%Q. lra.
           ++ rewrite remainder_cons. apply Hbefore. lia.
      * intros [|j] Hj.
        -- rewrite remainder_cons. unfold remainder, totalWeight. simpl.
           change (inject_Z 0) with 0%Q. lra.
        -- rewrite remainder_cons. apply IH. lia.
Qed.

Lemma foldl_max_le (rest : list Z) (x y : Z) :
  y = x ∨ y ∈ rest → y ≤ foldl Z.max x rest.
Proof.
  revert x y. induction rest as [|z rest IH]; intros x y; simpl.
  - intros [-> | Hy]; [lia | by apply elem_of_nil in Hy].
  - intros [-> | Hy].
    + trans (Z.max x z); [lia | apply IH; by left].
    + apply elem_of_cons in Hy as [-> | Hy].
      * trans (Z.max x z); [lia | apply IH; by left].
      * apply IH. by right.
Qed.

Lemma Math_max_ge (xs : list Z) (y : Z) : y ∈ xs → y ≤ Math_max xs.
Proof.
  destruct xs as [|x rest]; [intros Hy; by apply elem_of_nil in Hy|].
  intros Hy. simpl. apply foldl_max_le.
  apply elem_of_cons in Hy as [-> | Hy]; [by left | by right].
Qed.

Lemma selectByWeight_positive (r : Q) (items : list (Student * Z)) :
  valid_draw r → 0 < totalWeight items →
  ∃ k item,
    items !! k = Some item
    ∧ selectByWeight r items = Return (Some (fst item))
    ∧ (remainder items (r * inject_Z (totalWeight items)) (S k) <= 0)%Q
    ∧ ∀ j, (j < k)%nat →
           (0 < remainder items (r * inject_Z (totalWeight items)) (S j))%Q.
Proof.
  intros [Hlow Hhigh] Htotal. unfold selectByWeight.
  rewrite bool_decide_eq_false_2; [|lia].
  pose proof (walk_spec items (r * inject_Z (totalWeight items))) as Hwalk.
  destruct (walk items _) as [s|].
  - destruct Hwalk as (k & item & Hk & Hfst & Hstop & Hbefore).
    exists k, item. by rewrite Hfst.
  - exfalso.
    assert (Hne : (0 < length items)%nat).
    { destruct items; [unfold totalWeight in Htotal; simpl in Htotal; lia|].
      simpl. lia. }
    specialize (Hwalk (length items - 1)%nat).
    replace (S (length items - 1)) with (length items) in Hwalk by lia.
    unfold remainder in Hwalk. rewrite firstn_all in Hwalk.
    assert (Hpos : (0 < inject_Z (totalWeight items))%Q).
    { change 0%Q with (inject_Z 0). by rewrite <- Zlt_Qlt. }
    assert (0 < r * inject_Z (totalWeight items)
                - inject_Z (totalWeight items))%Q by (apply Hwalk; lia).
    nra.
Qed.

Lemma studentsWithWeights_weight this students :
  studentsWithWeights this students
  = map (λ s, (s, weight this students s)) students.
Proof.
  unfold studentsWithWeights, weight.
  destruct (avoidImmediateRepeat this
            && bool_decide (set_size this < len students - 1)); simpl; [|done].
  rewrite map_map. apply map_ext. intros s. simpl. by destruct (has this s).
Qed.

Lemma weight_positive this students s :
  s ∈ students → 1 ≤ weight this students s.
Proof.
  intros Hs. unfold weight.
  assert (counted s ≤ Math_max (map counted students)).
  { apply Math_max_ge. apply list_elem_of_In, in_map, list_elem_of_In, Hs. }
  destruct (_ && _ && _); lia.
Qed.

Lemma totalWeight_ge_length (items : list (Student * Z)) :
  (∀ item, item ∈ items → 1 ≤ snd item) → len items ≤ totalWeight items.
Proof.
  induction items as [|item rest IH]; intros Hall.
  - done.
  - rewrite totalWeight_cons. unfold len in *. simpl length.
    assert (1 ≤ snd item) by (apply Hall; by left).
    assert (Z.of_nat (length rest) ≤ totalWeight rest).
    { apply IH. intros other Hother. apply Hall. by right. }
    lia.
Qed.

Lemma totalWeight_students this students :
  len students ≤ totalWeight (studentsWithWeights this students).
Proof.
  rewrite studentsWithWeights_weight.
  etrans; [|apply totalWeight_ge_length].
  - unfold len. by rewrite length_map.
  - intros item Hitem.
    apply list_elem_of_In, in_map_iff in Hitem as (s & <- & Hs).
    simpl. apply weight_positive. by apply list_elem_of_In.
Qed.

(** C4 (amended). Under ['weighted'], on two eligible entries or more, the
    weight of an entry is 1 + (the greatest call count of the eligible
    entries - its call count), doubled when repeat avoidance is on, fewer
    than [length - 1] ids are in [selectedStudents] and the id of the entry
    is not among them.  The total weight is positive and the call returns
    an eligible entry: the walk over the weights, in roster order, stops
    within the roster.  With the value [r * total] of the draw, the entry
    returned is the one at which the value less the weights up to and
    including this entry is not positive, when the value less the weights up
    to and including any earlier entry is at least [total * 2^-53], so that
    it is positive also for the product in double precision.
    [selectByWeight] falls back to a random element, as [fairRandom] draws
    it, when the total weight is not positive. *)
Theorem weighted_policy_draw
    (sm : option StorageManager) (this : CallAlgorithm) (c : Chance)
    (students : list Student) (options : Options)
    (Hchance : valid_chance c)
    (Hlength : (2 ≤ length (eligible sm students Weighted))%nat) :
  let this1 :=
    setAvoidImmediateRepeat this
      (default false (opt_avoidImmediateRepeat options)) in
  let pool := eligible sm students Weighted in
  let items := studentsWithWeights this1 pool in
  let drawn := (random c 0 * inject_Z (totalWeight items))%Q in
  items = map (λ s, (s, weight this1 pool s)) pool
  ∧ 0 < totalWeight items
  ∧ (∃ s, s ∈ pool
          ∧ fst (selectStudent sm this c students Weighted options)
            = Return (Some s))
  ∧ (∀ (k : nat) s,
       pool !! k = Some s →
       (remainder items drawn (S k) <= 0)%Q →
       (∀ j, (j < k)%nat →
             (rounding_margin (totalWeight items)
              <= remainder items drawn (S j))%Q) →
       fst (selectStudent sm this c students Weighted options) = Return (Some s))
  ∧ (∀ r items',
       totalWeight items' ≤ 0 →
       selectByWeight r items' = student_of (random_element r items')).
Proof.
  cbv zeta.
  set (this1 := setAvoidImmediateRepeat this _).
  set (pool := eligible sm students Weighted) in *.
  set (items := studentsWithWeights this1 pool).
  assert (Hitems : items = map (λ s, (s, weight this1 pool s)) pool)
    by apply studentsWithWeights_weight.
  assert (Htotal : 0 < totalWeight items).
  { pose proof (totalWeight_students this1 pool). unfold len in *. fold items in H. lia. }
  assert (Hne : pool ≠ [])
    by (intros Hnil; rewrite Hnil in Hlength; simpl in Hlength; lia).
  assert (Hweighted : weightedRandom this1 (random c 0) pool
                      = selectByWeight (random c 0) items).
  { unfold weightedRandom.
    destruct pool as [|a [|b rest]]; simpl in Hlength; [lia..|done]. }
  destruct Hchance as [Hdraw _].
  destruct (selectByWeight_positive (random c 0) items (Hdraw 0%nat) Htotal)
    as (k & item & Hk & Hpick & Hstop & Hbefore).
  assert (Hresult : fst (selectStudent sm this c students Weighted options)
                    = Return (Some (fst item))).
  { rewrite selectStudent_dispatch; [|done]. cbv zeta. fold this1 pool.
    cbn [dispatch fst snd]. by rewrite Hweighted, Hpick. }
  assert (Hentry : pool !! k = Some (fst item)).
  { rewrite Hitems in Hk. change (map ?f ?l) with (f <$> l) in Hk.
    rewrite list_lookup_fmap in Hk.
    destruct (pool !! k) as [s'|]; [|done].
    simpl in Hk. by injection Hk as <-. }
  split; [exact Hitems|]. split; [exact Htotal|]. split; [|split].
  - exists (fst item). split; [by eapply list_elem_of_lookup_2 | exact Hresult].
  - intros k' s Hk' Hstop' Hbefore'. rewrite Hresult.
    pose proof (rounding_margin_positive (totalWeight items) Htotal) as Hmargin.
    assert (Hsame : k' = k).
    { destruct (lt_eq_lt_dec k' k) as [[Hlt | Heq] | Hgt]; [|done|].
      - specialize (Hbefore k' Hlt). lra.
      - specialize (Hbefore' k Hgt). lra. }
    subst k'. rewrite Hentry in Hk'. by injection Hk' as ->.
  - intros r items' Hdegenerate. unfold selectByWeight.
    by rewrite bool_decide_eq_true_2.
Qed.

Lemma weighted_policy_draw_witness :
  valid_chance (constant_chance (1 # 2)) ∧
  (2 ≤ length (eligible None scenario Weighted))%nat ∧
  fst (selectStudent None constructor (constant_chance (1 # 2)) scenario Weighted
         no_options) = Return (Some (student 2 "B" 0)).
Proof.
  assert (Hvalid : valid_chance (constant_chance (1 # 2)))
    by (apply valid_constant_chance; split; by vm_compute).
  assert (Hlength : (2 ≤ length (eligible None scenario Weighted))%nat)
    by (simpl; lia).
  split; [exact Hvalid|]. split; [exact Hlength|].
  destruct (weighted_policy_draw None constructor (constant_chance (1 # 2))
              scenario no_options Hvalid Hlength) as (_ & _ & _ & Hwalk & _).
  apply (Hwalk 1%nat); [reflexivity | by vm_compute |].
  intros [|j] Hj; [by vm_compute | lia].
Defined.

(** ** C3: repeat avoidance over successive calls *)

(** C3 (counterexample). Under ['weighted'] an entry that has been chosen
    keeps a positive weight: with draws equal to 0 the first two picks on
    the scenario roster are both the entry with id 1. *)
Lemma weighted_repeats_within_a_cycle :
  map picked_id
    (fst (run None constructor [constant_chance 0; constant_chance 0] scenario
            Weighted avoid_repeat)) = [Some 1; Some 1]
  ∧ ¬ no_repeat_within_a_cycle.
Proof.
  split; [by vm_compute|]. intros Hspec.
  assert (Hids : NoDup (map id scenario)).
  { apply (bool_decide_unpack (NoDup (map id scenario))). by vm_compute. }
  assert (Hvalid : Forall valid_chance [constant_chance 0; constant_chance 0]).
  { repeat constructor; apply valid_constant_chance, valid_draw_zero. }
  destruct (Hspec Weighted None scenario
              [constant_chance 0; constant_chance 0] None Hids Hvalid 0%nat)
    as [_ Hnodup].
  vm_compute in Hnodup. apply NoDup_cons in Hnodup as [Hfirst _].
  apply Hfirst. by left.
Qed.

(** *** The size of [selectedStudents] *)

Lemma size_add_le (x : Z) (X : gset Z) : (size ({[ x ]} ∪ X) ≤ S (size X))%nat.
Proof.
  destruct (decide (x ∈ X)) as [Hin | Hout].
  - rewrite (subseteq_union_1_L {[ x ]} X); [lia|].
    by apply singleton_subseteq_l.
  - rewrite size_union; [|by apply disjoint_singleton_l].
    rewrite size_singleton. lia.
Qed.

Lemma size_add_new (x : Z) (X : gset Z) :
  x ∉ X → size ({[ x ]} ∪ X) = S (size X).
Proof.
  intros Hout. rewrite size_union; [|by apply disjoint_singleton_l].
  by rewrite size_singleton.
Qed.

Lemma record_selection_size_bound this s pool (bound : Z) :
  0 < bound → len pool ≤ bound → set_size this < bound →
  set_size (record_selection this s pool) < bound.
Proof.
  intros Hpos Hpool Hsize. unfold record_selection.
  destruct (avoidImmediateRepeat this); simpl; [|done].
  case_bool_decide as Hfull; [by unfold set_size|].
  unfold set_size in *. simpl in *. lia.
Qed.

Lemma len_eligible_le sm students algorithm :
  len (eligible sm students algorithm) ≤ len students.
Proof.
  unfold eligible, filterStudentsBySpecialStatus, len.
  destruct (negb (is_fair algorithm) && bool_decide (is_Some sm)); [|lia].
  destruct sm as [sm|]; [|lia]. destruct (is_fair algorithm); [lia|].
  pose proof (length_filter
    (λ student, negb (shouldExcludeStudent sm (id student) algorithm) = true)
    students). lia.
Qed.

Lemma selectStudent_size_bound sm this c students algorithm options :
  students ≠ [] → set_size this < len students →
  set_size (snd (selectStudent sm this c students algorithm options))
  < len students.
Proof.
  intros Hne Hsize. rewrite selectStudent_eligible; [|done]. cbv zeta.
  set (this1 := setAvoidImmediateRepeat this _).
  set (pool := eligible sm students algorithm).
  assert (Hpos : 0 < len students).
  { unfold len. destruct students; [done | simpl; lia]. }
  assert (Hsize1 : set_size this1 < len students).
  { unfold set_size, this1. rewrite selected_setAvoidImmediateRepeat.
    destruct (default false _); [done | by rewrite size_empty]. }
  destruct (negb (is_fair algorithm) && bool_decide (is_Some sm)
            && bool_decide (len pool = 0)); [done|].
  pose proof (selected_dispatch this1 c pool algorithm options) as Hs.
  destruct (dispatch this1 c pool algorithm options) as [outcome this2].
  simpl in *.
  assert (Hsize2 : set_size this2 < len students).
  { unfold set_size. destruct Hs as [-> | ->]; [done | by rewrite size_empty]. }
  destruct outcome as [[s|]|]; simpl; [|done..].
  apply record_selection_size_bound; [done | apply len_eligible_le | done].
Qed.

Lemma run_size_bound sm cs this students algorithm options :
  students ≠ [] → set_size this < len students →
  set_size (snd (run sm this cs students algorithm options)) < len students.
Proof.
  intros Hne. revert this.
  induction cs as [|c cs IH]; intros this Hsize; simpl; [done|].
  apply IH. by apply selectStudent_size_bound.
Qed.

(** *** Runs and their cycles *)

Lemma run_take sm n cs this students algorithm options :
  take n (fst (run sm this cs students algorithm options))
  = fst (run sm this (take n cs) students algorithm options).
Proof.
  revert cs this. induction n as [|n IH]; intros [|c cs] this; simpl; try done.
  by rewrite IH.
Qed.

Lemma run_drop sm n cs this students algorithm options :
  drop n (fst (run sm this cs students algorithm options))
  = fst (run sm (snd (run sm this (take n cs) students algorithm options))
           (drop n cs) students algorithm options).
Proof.
  revert cs this. induction n as [|n IH]; intros [|c cs] this; simpl; try done.
Qed.

Section cycles.
Variables (algorithm : Algorithm) (options : Options) (pool : list Student).

(** The engine states at which a cycle starts. *)
Variable start : CallAlgorithm → Prop.

Hypothesis cycle :
  ∀ this cs,
    start this → Forall valid_chance cs → (length cs ≤ length pool)%nat →
    let result := run None this cs pool algorithm options in
    Forall (λ outcome, is_Some (picked_id outcome)) (fst result)
    ∧ NoDup (map picked_id (fst result))
    ∧ ((length cs = length pool)%nat → start (snd result)).

Lemma blocks_of_cycles (k : nat) (this : CallAlgorithm) (cs : list Chance) :
  start this → Forall valid_chance cs →
  let out := fst (run None this cs pool algorithm options) in
  let n := length pool in
  Forall (λ outcome, is_Some (picked_id outcome)) (take n (drop (k * n) out))
  ∧ NoDup (map picked_id (take n (drop (k * n) out))).
Proof.
  cbv zeta. revert this cs. induction k as [|k IH]; intros this cs Hstart Hvalid.
  - rewrite Nat.mul_0_l, drop_0, run_take.
    destruct (cycle this (take (length pool) cs)) as (Hsome & Hnodup & _);
      [done | by apply Forall_take | rewrite length_take; lia | done].
  - replace (S k * length pool)%nat with (length pool + k * length pool)%nat by lia.
    rewrite <- drop_drop, run_drop.
    destruct (decide (length cs < length pool)%nat) as [Hshort | Hlong].
    + rewrite (drop_ge cs); [|lia]. cbn [run fst]. rewrite drop_nil, take_nil.
      split; constructor.
    + apply IH; [|by apply Forall_drop].
      destruct (cycle this (take (length pool) cs)) as (_ & _ & Hnext);
        [done | by apply Forall_take | rewrite length_take; lia |].
      apply Hnext. rewrite length_take. lia.
Qed.
End cycles.

(** *** Cycles of ['leastCalled'] *)

Lemma some_entry_unchosen (pool : list Student) (X : gset Z) :
  NoDup (map id pool) → (size X < length pool)%nat →
  ∃ e, e ∈ pool ∧ id e ∉ X.
Proof.
  intros Hids Hsize.
  destruct (decide (Exists (λ e, id e ∉ X) pool)) as [Hex | Hall].
  { by apply Exists_exists in Hex. }
  exfalso. apply not_Exists_Forall in Hall; [|apply _].
  assert (Hsub : list_to_set (map id pool) ⊆ X).
  { intros i Hi. apply elem_of_list_to_set in Hi. apply list_elem_of_In in Hi.
    apply in_map_iff in Hi as (e & <- & He). apply list_elem_of_In in He.
    rewrite Forall_forall in Hall. specialize (Hall e He). simpl in Hall.
    by destruct (decide (id e ∈ X)). }
  apply subseteq_size in Hsub.
  rewrite size_list_to_set in Hsub; [|done].
  rewrite length_map in Hsub. lia.
Qed.

Lemma leastCalled_step this c pool groupCount :
  NoDup (map id pool) → valid_chance c →
  (size (selectedStudents this) < length pool)%nat →
  ∃ s, s ∈ pool ∧ (id s ∉ selectedStudents this)
       ∧ fst (selectStudent None this c pool LeastCalled
                (options_of (Some true) groupCount)) = Return (Some s)
       ∧ selectedStudents
           (snd (selectStudent None this c pool LeastCalled
                   (options_of (Some true) groupCount)))
         = if decide (S (size (selectedStudents this)) = length pool)
           then ∅ else {[ id s ]} ∪ selectedStudents this.
Proof.
  intros Hids [Hdraw _] Hsize.
  assert (Hne : pool ≠ []) by (intros ->; simpl in Hsize; lia).
  rewrite selectStudent_dispatch; [|by rewrite eligible_no_storage].
  cbv zeta. rewrite eligible_no_storage. cbn [dispatch fst snd].
  change (setAvoidImmediateRepeat this _)
    with (setAvoidImmediateRepeat this true).
  set (this1 := setAvoidImmediateRepeat this true).
  destruct (leastCalledFirst_minimum this1 (random c 0) pool (Hdraw 0%nat) Hne)
    as (s & Hs & Hin & _).
  destruct (some_entry_unchosen pool (selectedStudents this) Hids Hsize)
    as (e & He & Hfree).
  assert (Hpool : leastCalled_pool this1 pool
                  = filter (λ s, negb (has this1 s) = true) pool).
  { unfold leastCalled_pool. simpl. rewrite bool_decide_eq_true_2; [done|].
    assert (Hmem : e ∈ filter (λ s, negb (has this1 s) = true) pool).
    { apply list_elem_of_filter. split; [|done].
      unfold has. simpl. by rewrite negb_true_iff, bool_decide_eq_false. }
    apply list_elem_of_lookup in Hmem as [i Hi]. apply lookup_lt_Some in Hi.
    unfold len. lia. }
  rewrite Hpool in Hin. apply list_elem_of_filter in Hin as [Hunchosen Hin].
  unfold has in Hunchosen. simpl in Hunchosen.
  rewrite negb_true_iff, bool_decide_eq_false in Hunchosen.
  exists s. rewrite Hs. cbn [fst snd].
  split; [done|]. split; [done|]. split; [done|].
  unfold record_selection. simpl. unfold set_size, len. simpl.
  rewrite size_add_new; [|done].
  case_bool_decide; case_decide; try done; lia.
Qed.

Lemma leastCalled_cycle pool groupCount :
  NoDup (map id pool) →
  ∀ cs this,
    Forall valid_chance cs →
    (size (selectedStudents this) + length cs ≤ length pool)%nat →
    let result :=
      run None this cs pool LeastCalled (options_of (Some true) groupCount) in
    ∃ picks,
      fst result = map (λ s, Return (Some s)) picks
      ∧ NoDup (map id picks)
      ∧ (∀ s, s ∈ picks → id s ∉ selectedStudents this)
      ∧ (cs ≠ [] →
         (size (selectedStudents this) + length cs = length pool)%nat →
         selectedStudents (snd result) = ∅).
Proof.
  intros Hids. induction cs as [|c cs IH]; intros this Hvalid Hroom.
  - exists []. simpl. split; [done|]. split; [constructor|].
    split; [|done]. intros s Hs. by apply elem_of_nil in Hs.
  - apply Forall_cons in Hvalid as [Hc Hvalid]. simpl in Hroom.
    destruct (leastCalled_step this c pool groupCount Hids Hc)
      as (s & Hs & Hfresh & Hpick & Hset); [lia|].
    cbn [run fst snd].
    set (this1 := snd (selectStudent None this c pool LeastCalled
                         (options_of (Some true) groupCount))) in *.
    rewrite Hpick.
    destruct (decide (S (size (selectedStudents this)) = length pool))
      as [Hfull | Hmore].
    + assert (cs = []) as -> by (destruct cs; [done | simpl in Hroom; lia]).
      exists [s]. simpl. split; [done|].
      split; [apply NoDup_singleton|]. split; [|done].
      intros s' Hs'. apply list_elem_of_singleton in Hs'. by subst.
    + assert (Hsize1 : size (selectedStudents this1)
                       = S (size (selectedStudents this))).
      { rewrite Hset. by apply size_add_new. }
      destruct (IH this1 Hvalid) as (picks & Hout & Hnodup & Hfree & Hend);
        [lia|].
      exists (s :: picks). rewrite Hout. simpl. split; [done|].
      split; [|split].
      * apply NoDup_cons. split; [|done].
        intros Hdup. apply list_elem_of_In, in_map_iff in Hdup as (s' & Hid & Hs').
        apply list_elem_of_In in Hs'. apply (Hfree s' Hs').
        rewrite Hset, Hid. apply elem_of_union_l. by apply elem_of_singleton.
      * intros s' Hs'. apply elem_of_cons in Hs' as [-> | Hs']; [done|].
        intros Hin. apply (Hfree s' Hs'). rewrite Hset. by apply elem_of_union_r.
      * intros _ Hexact. apply Hend; [|lia].
        intros ->. simpl in Hexact. lia.
Qed.

(** *** Cycles of ['roundRobin'] *)

Lemma findIndex_from_unique (pool : list Student) (i : nat) (s : Student) (k : Z) :
  NoDup (map id pool) → pool !! i = Some s →
  findIndex_from (λ x, bool_decide (Some (id x) = Some (id s))) pool k
  = k + Z.of_nat i.
Proof.
  revert i k. induction pool as [|a rest IH]; intros i k Hids Hi; [done|].
  simpl in Hids. apply NoDup_cons in Hids as [Hfirst Hids].
  destruct i as [|i]; simpl in *.
  - injection Hi as ->. rewrite bool_decide_eq_true_2; [lia | done].
  - rewrite bool_decide_eq_false_2.
    + rewrite (IH i (k + 1) Hids Hi). lia.
    + intros Hsame. injection Hsame as Hsame. apply Hfirst.
      rewrite Hsame. apply list_elem_of_In, in_map, list_elem_of_In.
      by eapply list_elem_of_lookup_2.
Qed.

Lemma js_index_nat {A} (arr : list A) (j : nat) :
  js_index arr (Z.of_nat j) = arr !! j.
Proof.
  unfold js_index. rewrite bool_decide_eq_true_2; [|lia]. by rewrite Nat2Z.id.
Qed.

Lemma added_not_empty (x : Z) (X : gset Z) : {[ x ]} ∪ X ≠ ∅.
Proof.
  intros Hempty.
  assert (Hin : x ∈ ({[ x ]} ∪ X : gset Z))
    by (apply elem_of_union_l; by apply elem_of_singleton).
  rewrite Hempty in Hin. by apply elem_of_empty in Hin.
Qed.

Lemma rem_succ_nat (i n : nat) :
  (0 < n)%nat → Z.rem (Z.of_nat i + 1) (Z.of_nat n) = Z.of_nat (S i mod n).
Proof.
  intros Hn. rewrite Z.rem_mod_nonneg; [|lia..].
  rewrite Nat2Z.inj_mod. f_equal. lia.
Qed.

Lemma roundRobin_step this c pool groupCount (j : nat) (s : Student) :
  NoDup (map id pool) → (2 ≤ length pool)%nat →
  roundRobin_next pool this j → pool !! j = Some s →
  fst (selectStudent None this c pool RoundRobin
         (options_of (Some true) groupCount)) = Return (Some s)
  ∧ roundRobin_next pool
      (snd (selectStudent None this c pool RoundRobin
              (options_of (Some true) groupCount)))
      (S j mod length pool).
Proof.
  intros Hids Hlen Hnext Hj.
  assert (Hne : pool ≠ []) by (intros ->; simpl in Hlen; lia).
  rewrite selectStudent_dispatch; [|by rewrite eligible_no_storage].
  cbv zeta. rewrite eligible_no_storage. cbn [dispatch fst snd].
  change (setAvoidImmediateRepeat this _)
    with (setAvoidImmediateRepeat this true).
  set (this1 := setAvoidImmediateRepeat this true).
  assert (Hpick :
    fst (roundRobin this1 pool) = Some s
    ∧ (selectedStudents (snd (roundRobin this1 pool)) = ∅
       ∨ (size (selectedStudents (snd (roundRobin this1 pool))) < length pool - 1)%nat)
    ∧ avoidImmediateRepeat (snd (roundRobin this1 pool)) = true).
  { unfold roundRobin.
    destruct pool as [|a [|b rest]]; [simpl in Hlen; lia..|].
    set (pool := a :: b :: rest) in *.
    destruct Hnext as [[Hempty ->] | (Hsome & i & s' & Hi & Hlast & ->)].
    - rewrite bool_decide_eq_true_2.
      + simpl in Hj. injection Hj as <-. simpl. split; [done|]. split; [by left | done].
      + unfold set_size. simpl. rewrite Hempty. by rewrite size_empty.
    - rewrite bool_decide_eq_false_2.
      2:{ unfold set_size. simpl. intros Hzero.
          apply Hsome. apply leibniz_equiv, size_empty_iff. lia. }
      assert (Hfound :
        findIndex (λ x, bool_decide (Some (id x) = lastSelectedStudent this1)) pool
        = Z.of_nat i).
      { unfold findIndex. simpl lastSelectedStudent. rewrite Hlast.
        rewrite (findIndex_from_unique pool i s' 0 Hids Hi). lia. }
      rewrite Hfound. unfold len. rewrite rem_succ_nat; [|lia].
      rewrite js_index_nat, Hj.
      destruct (avoidImmediateRepeat this1
                && bool_decide (set_size this1 >= Z.of_nat (length pool) - 1))
        eqn:Hclear; simpl.
      + split; [done|]. split; [by left | done].
      + split; [done|]. split; [|done]. right.
        simpl in Hclear. apply bool_decide_eq_false in Hclear.
        unfold set_size in Hclear. simpl in Hclear. lia. }
  destruct Hpick as (Hpick & Hsize & Havoid).
  destruct (roundRobin this1 pool) as [picked this2]. simpl in *. subst picked.
  split; [done|]. right.
  unfold record_selection. rewrite Havoid. simpl.
  rewrite bool_decide_eq_false_2.
  - simpl. split; [apply added_not_empty|]. by exists j, s.
  - unfold set_size, len. simpl.
    pose proof (size_add_le (id s) (selectedStudents this2)) as Hadd.
    destruct Hsize as [Hempty | Hsmall].
    + rewrite Hempty in *. rewrite size_empty in Hadd. lia.
    + lia.
Qed.

Lemma roundRobin_cycle pool groupCount :
  NoDup (map id pool) → (2 ≤ length pool)%nat →
  ∀ cs this j,
    roundRobin_next pool this j → (j < length pool)%nat →
    (j + length cs ≤ length pool)%nat →
    let result :=
      run None this cs pool RoundRobin (options_of (Some true) groupCount) in
    fst result = map (λ s, Return (Some s)) (take (length cs) (drop j pool))
    ∧ roundRobin_next pool (snd result) ((j + length cs) mod length pool).
Proof.
  intros Hids Hlen. induction cs as [|c cs IH]; intros this j Hnext Hj Hroom.
  - simpl. split; [done|]. rewrite Nat.add_0_r, Nat.mod_small; done.
  - simpl in Hroom. destruct (lookup_lt_is_Some_2 pool j Hj) as [s Hs].
    destruct (roundRobin_step this c pool groupCount j s Hids Hlen Hnext Hs)
      as [Hpick Hnext1].
    cbn [run fst snd length].
    set (this1 := snd (selectStudent None this c pool RoundRobin
                         (options_of (Some true) groupCount))) in *.
    rewrite Hpick. rewrite (drop_S pool s j Hs). simpl.
    destruct (decide (S j = length pool)) as [Hlast | Hmore].
    + assert (cs = []) as -> by (destruct cs; [done | simpl in Hroom; lia]).
      simpl. split; [done|]. by rewrite Nat.add_1_r.
    + rewrite Nat.mod_small in Hnext1; [|lia].
      destruct (IH this1 (S j) Hnext1) as [Hout Hend]; [lia..|].
      rewrite Hout. split; [done|].
      by replace (j + S (length cs))%nat with (S j + length cs)%nat by lia.
Qed.

(** *** The cycles of both policies *)

Lemma picks_are_some (picks : list Student) :
  Forall (λ outcome, is_Some (picked_id outcome))
         (map (λ s, Return (Some s)) picks).
Proof.
  apply Forall_forall. intros outcome Hin.
  apply list_elem_of_In, in_map_iff in Hin as (s & <- & _). by eexists.
Qed.

Lemma picks_without_repeat (picks : list Student) :
  NoDup (map id picks) →
  NoDup (map picked_id (map (λ s, Return (Some s)) picks)).
Proof.
  intros Hids. rewrite map_map. simpl.
  rewrite <- (map_map id Some). by apply (NoDup_fmap_2 Some).
Qed.

Lemma leastCalled_blocks pool groupCount k this cs :
  NoDup (map id pool) → selectedStudents this = ∅ → Forall valid_chance cs →
  let out :=
    fst (run None this cs pool LeastCalled (options_of (Some true) groupCount)) in
  Forall (λ outcome, is_Some (picked_id outcome))
         (take (length pool) (drop (k * length pool) out))
  ∧ NoDup (map picked_id (take (length pool) (drop (k * length pool) out))).
Proof.
  intros Hids Hempty Hvalid.
  apply (blocks_of_cycles LeastCalled (options_of (Some true) groupCount) pool
           (λ this, selectedStudents this = ∅)); [|done..].
  clear this cs Hempty Hvalid. intros this cs Hempty Hvalid Hlen.
  destruct (leastCalled_cycle pool groupCount Hids cs this Hvalid)
    as (picks & Hout & Hnodup & _ & Hend).
  { rewrite Hempty, size_empty. lia. }
  cbv zeta. rewrite Hout.
  split; [apply picks_are_some|]. split; [by apply picks_without_repeat|].
  intros Hfull. destruct cs as [|c cs].
  - done.
  - apply Hend; [done|]. rewrite Hempty, size_empty. lia.
Qed.

Lemma roundRobin_single this c only cs groupCount :
  Forall (λ outcome, is_Some (picked_id outcome))
         (fst (run None this (c :: cs) [only] RoundRobin
                 (options_of (Some true) groupCount))).
Proof.
  revert this c. induction cs as [|c' cs IH]; intros this c.
  - repeat constructor. by eexists.
  - constructor; [by eexists | apply IH].
Qed.

Lemma roundRobin_blocks pool groupCount k cs :
  NoDup (map id pool) → Forall valid_chance cs →
  let out :=
    fst (run None constructor cs pool RoundRobin
           (options_of (Some true) groupCount)) in
  Forall (λ outcome, is_Some (picked_id outcome))
         (take (length pool) (drop (k * length pool) out))
  ∧ NoDup (map picked_id (take (length pool) (drop (k * length pool) out))).
Proof.
  intros Hids Hvalid. cbv zeta.
  destruct pool as [|a [|b rest]].
  - simpl. split; constructor.
  - assert (Hall : Forall (λ outcome, is_Some (picked_id outcome))
                     (fst (run None constructor cs [a] RoundRobin
                             (options_of (Some true) groupCount)))).
    { destruct cs as [|c cs]; [constructor | apply roundRobin_single]. }
    apply (Forall_drop _ (k * length [a])%nat) in Hall.
    apply (Forall_take _ (length [a])) in Hall.
    split; [done|].
    destruct (drop _ _) as [|first others]; simpl; [constructor|].
    apply NoDup_singleton.
  - set (pool := a :: b :: rest) in *.
    assert (Hlen : (2 ≤ length pool)%nat) by (simpl; lia).
    apply (blocks_of_cycles RoundRobin (options_of (Some true) groupCount) pool
             (λ this, roundRobin_next pool this 0)); [|by left|done].
    clear cs Hvalid. intros this cs Hstart _ Hroom.
    destruct (roundRobin_cycle pool groupCount Hids Hlen cs this 0%nat Hstart)
      as [Hout Hend]; [lia..|].
    cbv zeta. rewrite Hout, drop_0.
    split; [apply picks_are_some|]. split.
    + apply picks_without_repeat.
      eapply sublist_NoDup; [exact Hids|].
      apply (fmap_sublist id). apply sublist_take.
    + intros Hfull.
      by rewrite Hfull, Nat.add_0_l, Nat.Div0.mod_same in Hend.
Qed.

Lemma selectStudent_on_eligible sm this c students algorithm options :
  eligible sm students algorithm ≠ [] →
  selectStudent sm this c students algorithm options
  = selectStudent None this c (eligible sm students algorithm) algorithm options.
Proof.
  intros Hne. rewrite !selectStudent_dispatch.
  - by rewrite eligible_no_storage.
  - by rewrite eligible_no_storage.
  - done.
Qed.

Lemma run_on_eligible sm this cs students algorithm options :
  eligible sm students algorithm ≠ [] →
  run sm this cs students algorithm options
  = run None this cs (eligible sm students algorithm) algorithm options.
Proof.
  intros Hne. revert this. induction cs as [|c cs IH]; intros this; simpl; [done|].
  rewrite selectStudent_on_eligible; [|done]. by rewrite IH.
Qed.

Lemma eligible_ids_distinct sm students algorithm :
  NoDup (map id students) → NoDup (map id (eligible sm students algorithm)).
Proof.
  intros Hids. unfold eligible, filterStudentsBySpecialStatus.
  destruct (negb (is_fair algorithm) && bool_decide (is_Some sm)); [|done].
  destruct sm as [sm|]; [|done]. destruct (is_fair algorithm); [done|].
  eapply sublist_NoDup; [exact Hids|].
  apply (fmap_sublist id). apply sublist_filter.
Qed.

(** C3 (amended). With repeat avoidance on at every call, a fixed roster
    whose ids are pairwise distinct and an engine that starts fresh: under
    ['leastCalled'] and under ['roundRobin'] the picks fall into consecutive
    cycles as long as the eligible roster, every call picks an entry and no
    cycle holds an entry twice, so that no entry is picked a second time
    before every other entry has been picked.  Under every policy, whatever
    the options, [selectedStudents] holds fewer ids than the roster has
    entries when a call returns; under ['leastCalled'] it is empty again
    when a cycle is complete. *)
Theorem repeat_avoidance_cycles
    (sm : option StorageManager) (students : list Student) (cs : list Chance)
    (groupCount : option Z) (algorithm : Algorithm)
    (Hpolicy : algorithm = LeastCalled ∨ algorithm = RoundRobin)
    (Hids : NoDup (map id students))
    (Hchances : Forall valid_chance cs) :
  let result :=
    run sm constructor cs students algorithm (options_of (Some true) groupCount) in
  let n := length (eligible sm students algorithm) in
  (∀ k, Forall (λ outcome, is_Some (picked_id outcome))
               (take n (drop (k * n) (fst result)))
        ∧ NoDup (map picked_id (take n (drop (k * n) (fst result)))))
  ∧ (∀ policy options,
       students ≠ [] →
       set_size (snd (run sm constructor cs students policy options))
       < len students)
  ∧ (algorithm = LeastCalled → length cs = n →
     selectedStudents (snd result) = ∅).
Proof.
  cbv zeta. split; [|split].
  - intros k.
    destruct (decide (eligible sm students algorithm = [])) as [Hnone | Hsome].
    { rewrite Hnone. simpl. split; constructor. }
    rewrite run_on_eligible; [|done].
    pose proof (eligible_ids_distinct sm students algorithm Hids) as Hpool.
    destruct Hpolicy as [-> | ->].
    + by apply leastCalled_blocks.
    + by apply roundRobin_blocks.
  - intros policy options Hne. apply run_size_bound; [done|].
    unfold set_size, len, constructor. cbn [selectedStudents].
    rewrite size_empty. destruct students; [done | simpl; lia].
  - intros -> Hfull.
    destruct (decide (eligible sm students LeastCalled = [])) as [Hnone | Hsome].
    { rewrite Hnone in Hfull. by destruct cs. }
    rewrite run_on_eligible; [|done].
    destruct (leastCalled_cycle (eligible sm students LeastCalled) groupCount
                (eligible_ids_distinct sm students LeastCalled Hids)
                cs constructor Hchances) as (picks & _ & _ & _ & Hend).
    { unfold constructor. cbn [selectedStudents]. rewrite size_empty. lia. }
    apply Hend.
    + intros ->. simpl in Hfull. by destruct (eligible sm students LeastCalled).
    + unfold constructor. cbn [selectedStudents]. rewrite size_empty. lia.
Qed.

Lemma repeat_avoidance_cycles_witness :
  let cs := [constant_chance 0; constant_chance 0; constant_chance 0;
             constant_chance 0] in
  NoDup (map id scenario) ∧ Forall valid_chance cs ∧
  NoDup (map picked_id
           (take 3 (drop (0 * 3)
              (fst (run None constructor cs scenario LeastCalled
                      (options_of (Some true) None)))))).
Proof.
  cbv zeta.
  assert (Hids : NoDup (map id scenario)).
  { apply (bool_decide_unpack (NoDup (map id scenario))). by vm_compute. }
  assert (Hvalid : Forall valid_chance
            [constant_chance 0; constant_chance 0; constant_chance 0;
             constant_chance 0]).
  { repeat constructor; apply valid_constant_chance, valid_draw_zero. }
  split; [exact Hids|]. split; [exact Hvalid|].
  destruct (repeat_avoidance_cycles None scenario _ None LeastCalled
              (or_introl eq_refl) Hids Hvalid) as [Hblocks _].
  exact (proj2 (Hblocks 0%nat)).
Defined.

(** ** The picks are roster entries *)

Lemma weightedRandom_picks this r students :
  valid_draw r → students ≠ [] →
  ∃ s, weightedRandom this r students = Return (Some s) ∧ s ∈ students.
Proof.
  intros Hr Hne. destruct students as [|a [|b rest]]; [done| |].
  - exists a. split; [done | by left].
  - set (students := a :: b :: rest).
    assert (Htotal : 0 < totalWeight (studentsWithWeights this students)).
    { pose proof (totalWeight_students this students) as Hge.
      unfold len, students in Hge. simpl length in Hge. fold students in Hge. lia. }
    destruct (selectByWeight_positive r _ Hr Htotal)
      as (k & item & Hk & Hpick & _).
    exists (fst item). split; [exact Hpick|].
    rewrite studentsWithWeights_weight in Hk.
    change (map ?f ?l) with (f <$> l) in Hk. rewrite list_lookup_fmap in Hk.
    destruct (students !! k) as [s|] eqn:Hs; [|done].
    simpl in Hk. injection Hk as <-. simpl. by eapply list_elem_of_lookup_2.
Qed.

Lemma fairRandom_picks this r students :
  valid_draw r → students ≠ [] →
  ∃ s, fairRandom this r students = Some s ∧ s ∈ students.
Proof.
  intros Hr Hne. rewrite fairRandom_pool; [|done].
  assert (Hpool : fair_pool this students ≠ []
                  ∧ ∀ s, s ∈ fair_pool this students → s ∈ students).
  { unfold fair_pool. destruct (avoidImmediateRepeat this && _); simpl; [|done].
    case_bool_decide as Hlen; [|done]. split.
    - intros Hnil. rewrite Hnil in Hlen. unfold len in Hlen. simpl in Hlen. lia.
    - intros s Hs. by apply list_elem_of_filter in Hs as [_ Hs]. }
  destruct Hpool as [Hsome Hsub].
  destruct (random_element_is_Some r _ Hr Hsome) as [s Hs].
  exists s. split; [done|]. by apply Hsub, (random_element_elem_of r).
Qed.

Lemma fairRandom_member this r students s :
  fairRandom this r students = Some s → s ∈ students.
Proof.
  unfold fairRandom. destruct students as [|a [|b rest]]; [done| |].
  - intros [= ->]. by left.
  - destruct (avoidImmediateRepeat this && _ && _); intros Hs;
      apply random_element_elem_of in Hs; [|done].
    by apply list_elem_of_filter in Hs as [_ Hs].
Qed.

Lemma findIndex_from_range {A} (p : A → bool) (arr : list A) (k : Z) :
  findIndex_from p arr k = -1 ∨ k ≤ findIndex_from p arr k < k + len arr.
Proof.
  revert k. induction arr as [|x rest IH]; intros k; simpl; [by left|].
  unfold len. simpl length. destruct (p x); [right; lia|].
  destruct (IH (k + 1)) as [Hnone | Hrange]; [by left|].
  right. unfold len in Hrange. lia.
Qed.

Lemma roundRobin_picks this students :
  students ≠ [] →
  ∃ s, fst (roundRobin this students) = Some s ∧ s ∈ students.
Proof.
  intros Hne. unfold roundRobin. destruct students as [|a [|b rest]]; [done| |].
  - exists a. split; [done | by left].
  - set (students := a :: b :: rest).
    case_bool_decide.
    { exists a. split; [done | by left]. }
    set (lastIndex := findIndex _ students).
    assert (Hnext : 0 ≤ Z.rem (lastIndex + 1) (len students) < len students).
    { apply Z.rem_bound_pos.
      - destruct (findIndex_from_range
                    (λ s, bool_decide (Some (id s) = lastSelectedStudent this))
                    students 0) as [Hnone | Hrange];
          unfold lastIndex, findIndex; lia.
      - unfold len. simpl. lia. }
    set (nextIndex := Z.rem (lastIndex + 1) (len students)) in *.
    assert (Hpick : is_Some (js_index students nextIndex)).
    { unfold js_index. rewrite bool_decide_eq_true_2; [|lia].
      apply lookup_lt_is_Some. unfold len in Hnext. lia. }
    destruct Hpick as [s Hs]. exists s.
    split; [|by eapply js_index_elem_of].
    by destruct (avoidImmediateRepeat this && _).
Qed.

Lemma timeBalanced_picks this c students :
  valid_chance c → students ≠ [] →
  ∃ s, timeBalanced this c students = Return (Some s) ∧ s ∈ students.
Proof.
  intros [Hdraw _] Hne. unfold timeBalanced.
  destruct students as [|a [|b rest]]; [done| |].
  - exists a. split; [done | by left].
  - set (students := a :: b :: rest).
    set (scored := imap _ students).
    set (sorted := js_sort _ scored).
    assert (Hsorted : sorted ≡ₚ scored) by apply js_sort_perm.
    assert (Hlen : (length sorted = length students)%nat).
    { rewrite Hsorted. apply length_imap. }
    set (top := slice sorted 0 (Z.min 3 (len sorted))).
    assert (Htop : top ≠ []).
    { unfold top, slice. rewrite drop_0. unfold len. rewrite Hlen.
      destruct sorted as [|x sorted']; [simpl in Hlen; lia|].
      replace (Z.to_nat (Z.min 3 (Z.of_nat (length students)) - 0))
        with (S (Z.to_nat (Z.min 3 (Z.of_nat (length students)) - 1)))
        by (simpl length; lia).
      done. }
    destruct (random_element_is_Some (random c 0) top (Hdraw 0%nat) Htop)
      as [entry Hentry].
    exists (fst entry). rewrite Hentry. split; [done|].
    apply random_element_elem_of in Hentry.
    assert (Hin : entry ∈ scored).
    { rewrite <- Hsorted. unfold top, slice in Hentry. rewrite drop_0 in Hentry.
      eapply elem_of_sublist; [exact Hentry | apply sublist_take]. }
    apply elem_of_lookup_imap_1 in Hin as (i & s & -> & Hs).
    simpl. by eapply list_elem_of_lookup_2.
Qed.

Lemma slice_elem_of {A} (arr : list A) (start stop : Z) (x : A) :
  x ∈ slice arr start stop → x ∈ arr.
Proof.
  unfold slice. intros Hx.
  eapply elem_of_sublist; [exact Hx|].
  etrans; [apply sublist_take | apply sublist_drop].
Qed.

Lemma groupRandom_member this c students groupCount s :
  valid_chance c → groupRandom this c students groupCount = Some s →
  s ∈ students.
Proof.
  intros [_ Hshuffle]. unfold groupRandom.
  destruct students as [|a rest]; [done|].
  set (students := a :: rest).
  case_bool_decide; [apply fairRandom_member|].
  destruct (random_element _ _) as [selectedGroup|] eqn:Hgroup; [|done].
  intros Hs. apply fairRandom_member in Hs.
  apply random_element_elem_of in Hgroup.
  apply list_elem_of_In, in_map_iff in Hgroup as (i & <- & _).
  apply slice_elem_of in Hs.
  by rewrite (Hshuffle students) in Hs.
Qed.

Lemma leastCalled_pool_subseteq this students s :
  s ∈ leastCalled_pool this students → s ∈ students.
Proof.
  unfold leastCalled_pool. destruct (avoidImmediateRepeat this && _); [|done].
  intros Hs. by apply list_elem_of_filter in Hs as [_ Hs].
Qed.

(** Every policy but ['group'] picks an entry of a non-empty pool. *)
Lemma dispatch_picks this c pool algorithm options :
  valid_chance c → algorithm ≠ Group → pool ≠ [] →
  ∃ s, fst (dispatch this c pool algorithm options) = Return (Some s) ∧ s ∈ pool.
Proof.
  intros Hc Hpolicy Hne. pose proof Hc as [Hdraw _].
  destruct algorithm; cbn [dispatch fst]; try done.
  - destruct (fairRandom_picks this (random c 0) pool (Hdraw 0%nat) Hne)
      as (s & -> & Hs). by exists s.
  - by apply weightedRandom_picks.
  - destruct (leastCalledFirst_minimum this (random c 0) pool (Hdraw 0%nat) Hne)
      as (s & -> & Hs & _). exists s. split; [done|].
    by eapply leastCalled_pool_subseteq.
  - destruct (roundRobin_picks this pool Hne) as (s & -> & Hs). by exists s.
  - by apply timeBalanced_picks.
  - destruct (fairRandom_picks this (random c 0) pool (Hdraw 0%nat) Hne)
      as (s & -> & Hs). by exists s.
Qed.

Lemma eligible_subseteq sm students algorithm s :
  s ∈ eligible sm students algorithm → s ∈ students.
Proof.
  unfold eligible, filterStudentsBySpecialStatus.
  destruct (negb (is_fair algorithm) && bool_decide (is_Some sm)); [|done].
  destruct sm as [sm|]; [|done]. destruct (is_fair algorithm); [done|].
  intros Hs. by apply list_elem_of_filter in Hs as [_ Hs].
Qed.

(** Under every policy but ['group'], a call with some eligible roster entry
    returns an entry of the roster. *)
Lemma selectStudent_picks sm this c students algorithm options :
  valid_chance c → algorithm ≠ Group →
  eligible sm students algorithm ≠ [] →
  ∃ s, fst (selectStudent sm this c students algorithm options) = Return (Some s)
       ∧ s ∈ students.
Proof.
  intros Hc Hpolicy Hne. rewrite selectStudent_dispatch; [|done]. cbv zeta.
  destruct (dispatch_picks
              (setAvoidImmediateRepeat this
                 (default false (opt_avoidImmediateRepeat options)))
              c (eligible sm students algorithm) algorithm options Hc Hpolicy Hne)
    as (s & Hs & Hin).
  exists s. rewrite Hs. split; [done|]. by eapply eligible_subseteq.
Qed.

(** Under ['group'] the entry returned, when there is one, is a roster
    entry too. *)
Lemma selectStudent_group_member sm this c students options s :
  valid_chance c →
  fst (selectStudent sm this c students Group options) = Return (Some s) →
  s ∈ students.
Proof.
  intros Hc. destruct students as [|a rest]; [done|].
  rewrite selectStudent_eligible; [|done]. cbv zeta.
  destruct (negb (is_fair Group) && bool_decide (is_Some sm) && _); [done|].
  cbn [dispatch fst snd].
  destruct (groupRandom _ c _ _) as [picked|] eqn:Hpick; [|done].
  simpl. intros [= <-].
  eapply eligible_subseteq. by eapply groupRandom_member.
Qed.

(** * Further properties of the engine *)

(** ** What a call returns and records *)

Lemma dispatch_member this c pool algorithm options s :
  valid_chance c →
  fst (dispatch this c pool algorithm options) = Return (Some s) → s ∈ pool.
Proof.
  intros Hc.
  assert (Hcases : algorithm = Group ∨ algorithm ≠ Group)
    by (destruct algorithm; (by left) || (by right)).
  destruct Hcases as [-> | Hpolicy].
  - cbn [dispatch fst]. intros [= Hs]. by eapply groupRandom_member.
  - destruct pool as [|a rest].
    + by destruct algorithm.
    + destruct (dispatch_picks this c (a :: rest) algorithm options Hc Hpolicy)
        as (s' & Hs' & Hin); [done|].
      rewrite Hs'. by intros [= <-].
Qed.

Lemma selectStudent_some_dispatch sm this c students algorithm options s :
  fst (selectStudent sm this c students algorithm options) = Return (Some s) →
  fst (dispatch
         (setAvoidImmediateRepeat this
            (default false (opt_avoidImmediateRepeat options)))
         c (eligible sm students algorithm) algorithm options)
  = Return (Some s).
Proof.
  destruct students as [|a rest]; [done|].
  rewrite selectStudent_eligible; [|done]. cbv zeta.
  destruct (negb (is_fair algorithm) && bool_decide (is_Some sm) && _); [done|].
  by destruct (fst (dispatch _ c _ algorithm options)) as [[picked|]|].
Qed.

(** X1. Whatever the policy, an entry that [selectStudent] returns is an
    entry of the roster that the storage manager does not exclude: under a
    policy other than ['fair'] an excluded entry is never selected. *)
Theorem selected_entry_is_eligible
    (sm : option StorageManager) (this : CallAlgorithm) (c : Chance)
    (students : list Student) (algorithm : Algorithm) (options : Options)
    (s : Student)
    (Hchance : valid_chance c)
    (Hselected :
       fst (selectStudent sm this c students algorithm options) = Return (Some s)) :
  s ∈ students
  ∧ ∀ store, sm = Some store → algorithm ≠ Fair →
             shouldExcludeStudent store (id s) algorithm = false.
Proof.
  apply selectStudent_some_dispatch in Hselected.
  apply dispatch_member in Hselected; [|done].
  split; [by eapply eligible_subseteq|].
  intros store -> Hpolicy. rewrite eligible_filtered in Hselected; [|done].
  apply list_elem_of_filter in Hselected as [Hkept _].
  by apply negb_true_iff in Hkept.
Qed.

Lemma selected_entry_is_eligible_witness :
  valid_chance (constant_chance 0) ∧
  fst (selectStudent (Some exclude_first) constructor (constant_chance 0) scenario
         LeastCalled no_options) = Return (Some (student 2 "B" 0)) ∧
  student 2 "B" 0 ∈ scenario.
Proof.
  assert (Hvalid : valid_chance (constant_chance 0))
    by apply valid_constant_chance, valid_draw_zero.
  assert (Hpick :
    fst (selectStudent (Some exclude_first) constructor (constant_chance 0)
           scenario LeastCalled no_options) = Return (Some (student 2 "B" 0)))
    by (by vm_compute).
  split; [exact Hvalid|]. split; [exact Hpick|].
  exact (proj1 (selected_entry_is_eligible (Some exclude_first) constructor
                  (constant_chance 0) scenario LeastCalled no_options
                  (student 2 "B" 0) Hvalid Hpick)).
Defined.

(** X2. Under every policy but ['group'], with draws in [0,1) and at least
    one roster entry that is not excluded, [selectStudent] returns an
    eligible entry: it neither yields [null] nor throws. *)
Theorem non_group_policy_returns_entry
    (sm : option StorageManager) (this : CallAlgorithm) (c : Chance)
    (students : list Student) (algorithm : Algorithm) (options : Options)
    (Hchance : valid_chance c) (Hpolicy : algorithm ≠ Group)
    (Heligible : eligible sm students algorithm ≠ []) :
  ∃ s, fst (selectStudent sm this c students algorithm options) = Return (Some s)
       ∧ s ∈ eligible sm students algorithm.
Proof.
  rewrite selectStudent_dispatch; [|done]. cbv zeta.
  destruct (dispatch_picks
              (setAvoidImmediateRepeat this
                 (default false (opt_avoidImmediateRepeat options)))
              c (eligible sm students algorithm) algorithm options
              Hchance Hpolicy Heligible) as (s & Hs & Hin).
  exists s. by rewrite Hs.
Qed.

Lemma non_group_policy_returns_entry_witness :
  valid_chance (constant_chance 0) ∧ TimeBalanced ≠ Group ∧
  eligible (Some exclude_first) scenario TimeBalanced ≠ [] ∧
  ∃ s, fst (selectStudent (Some exclude_first) constructor (constant_chance 0)
              scenario TimeBalanced no_options) = Return (Some s)
       ∧ s ∈ eligible (Some exclude_first) scenario TimeBalanced.
Proof.
  assert (Hvalid : valid_chance (constant_chance 0))
    by apply valid_constant_chance, valid_draw_zero.
  assert (Hpolicy : TimeBalanced ≠ Group) by discriminate.
  assert (Heligible : eligible (Some exclude_first) scenario TimeBalanced ≠ [])
    by (vm_compute; discriminate).
  split; [exact Hvalid|]. split; [exact Hpolicy|]. split; [exact Heligible|].
  exact (non_group_policy_returns_entry (Some exclude_first) constructor
           (constant_chance 0) scenario TimeBalanced no_options
           Hvalid Hpolicy Heligible).
Defined.

Lemma last_setAvoidImmediateRepeat this avoid :
  lastSelectedStudent (setAvoidImmediateRepeat this avoid)
  = lastSelectedStudent this.
Proof. by destruct avoid. Qed.

Lemma last_roundRobin this students :
  lastSelectedStudent (snd (roundRobin this students)) = lastSelectedStudent this.
Proof.
  unfold roundRobin. destruct students as [|a [|b rest]]; [done..|].
  case_bool_decide; [done|].
  by destruct (avoidImmediateRepeat this && _).
Qed.

Lemma last_dispatch this c pool algorithm options :
  lastSelectedStudent (snd (dispatch this c pool algorithm options))
  = lastSelectedStudent this.
Proof. destruct algorithm; simpl; try done. apply last_roundRobin. Qed.

Lemma last_record_selection this s pool :
  lastSelectedStudent (record_selection this s pool) = Some (id s).
Proof.
  unfold record_selection. destruct (avoidImmediateRepeat this); simpl; [|done].
  by case_bool_decide.
Qed.

(** X3. After a call of [selectStudent], [lastSelectedStudent] is the id of
    the entry returned; a call that returns no entry (an empty or entirely
    excluded roster, an empty group, an exception) leaves it as it was. *)
Theorem lastSelectedStudent_follows_result
    (sm : option StorageManager) (this : CallAlgorithm) (c : Chance)
    (students : list Student) (algorithm : Algorithm) (options : Options) :
  lastSelectedStudent (snd (selectStudent sm this c students algorithm options))
  = match fst (selectStudent sm this c students algorithm options) with
    | Return (Some s) => Some (id s)
    | _ => lastSelectedStudent this
    end.
Proof.
  destruct students as [|a rest]; [done|].
  rewrite selectStudent_eligible; [|done]. cbv zeta.
  set (this1 := setAvoidImmediateRepeat this _).
  assert (Hlast1 : lastSelectedStudent this1 = lastSelectedStudent this)
    by apply last_setAvoidImmediateRepeat.
  destruct (negb (is_fair algorithm) && bool_decide (is_Some sm) && _); [done|].
  pose proof (last_dispatch this1 c (eligible sm (a :: rest) algorithm)
                algorithm options) as Hlast2.
  destruct (dispatch this1 c _ algorithm options) as [[[s|]|] this2];
    simpl in *; [apply last_record_selection | congruence..].
Qed.

Lemma groupRandom_single this c only groupCount :
  valid_chance c → 1 ≤ groupCount →
  groupRandom this c [only] groupCount = Some only.
Proof.
  intros [Hdraw Hshuffle] Hcount. unfold groupRandom.
  case_bool_decide as Hsmall; [done|].
  assert (groupCount = 1) as -> by (unfold len in Hsmall; simpl in Hsmall; lia).
  assert (Hsame : shuffle c [only] = [only]).
  { apply Permutation_singleton_r. apply Hshuffle. }
  rewrite Hsame.
  change (groups_of [only] (len [only]) 1) with [[only]].
  by rewrite random_element_singleton.
Qed.

Lemma record_selection_single this only :
  selectedStudents this = ∅ ∨ avoidImmediateRepeat this = true →
  selectedStudents (record_selection this only [only]) = ∅.
Proof.
  intros Hstate. unfold record_selection.
  destruct (avoidImmediateRepeat this) eqn:Havoid; simpl.
  - rewrite bool_decide_eq_true_2; [done|].
    unfold set_size, len. simpl.
    pose proof (added_not_empty (id only) (selectedStudents this)) as Hne.
    assert (size ({[ id only ]} ∪ selectedStudents this) ≠ 0%nat); [|lia].
    intros Hzero. apply Hne. by apply leibniz_equiv, size_empty_iff.
  - by destruct Hstate.
Qed.

(** X4. A roster of one entry that is not excluded: [selectStudent] returns
    that entry under every policy other than ['group'] whatever the draws,
    and under ['group'] when the draws are in [0,1) and [groupCount] is not
    negative.  The call leaves [selectedStudents] empty. *)
Theorem single_entry_is_returned
    (sm : option StorageManager) (this : CallAlgorithm) (c : Chance)
    (only : Student) (algorithm : Algorithm) (options : Options)
    (Hkept : eligible sm [only] algorithm = [only])
    (Hgroup : algorithm = Group →
              valid_chance c ∧ ∀ g, opt_groupCount options = Some g → 0 ≤ g) :
  fst (selectStudent sm this c [only] algorithm options) = Return (Some only)
  ∧ selectedStudents (snd (selectStudent sm this c [only] algorithm options)) = ∅.
Proof.
  rewrite selectStudent_dispatch; [|by rewrite Hkept]. cbv zeta. rewrite Hkept.
  set (avoid := default false (opt_avoidImmediateRepeat options)).
  set (this1 := setAvoidImmediateRepeat this avoid).
  assert (Hpick : fst (dispatch this1 c [only] algorithm options)
                  = Return (Some only)).
  { destruct algorithm; try done.
    destruct (Hgroup eq_refl) as [Hvalid Hcount].
    cbn [dispatch fst]. rewrite groupRandom_single; [done..|].
    destruct (opt_groupCount options) as [g|] eqn:Hg; simpl; [|lia].
    specialize (Hcount g eq_refl). destruct g; simpl; lia. }
  assert (Hstate :
    selectedStudents (snd (dispatch this1 c [only] algorithm options)) = ∅
    ∨ avoidImmediateRepeat (snd (dispatch this1 c [only] algorithm options))
      = true).
  { rewrite avoid_dispatch. unfold this1.
    rewrite avoid_setAvoidImmediateRepeat.
    destruct avoid eqn:Havoid; [by right | left].
    destruct (selected_dispatch (setAvoidImmediateRepeat this false) c [only]
                algorithm options) as [-> | ->]; done. }
  rewrite Hpick. cbn [fst snd]. split; [done|].
  by apply record_selection_single.
Qed.

Lemma single_entry_is_returned_witness :
  eligible None [student 1 "A" 5] Group = [student 1 "A" 5] ∧
  fst (selectStudent None constructor (constant_chance 0) [student 1 "A" 5] Group
         avoid_repeat) = Return (Some (student 1 "A" 5)).
Proof.
  split; [reflexivity|].
  apply (single_entry_is_returned None constructor (constant_chance 0)
           (student 1 "A" 5) Group avoid_repeat).
  - reflexivity.
  - intros _. split; [apply valid_constant_chance, valid_draw_zero|].
    intros g Hg. discriminate Hg.
Defined.

(** ** Round robin *)

Lemma findIndex_from_none {A} (p : A → bool) (arr : list A) (k : Z) :
  (∀ x, x ∈ arr → p x = false) → findIndex_from p arr k = -1.
Proof.
  revert k. induction arr as [|x rest IH]; intros k Hall; simpl; [done|].
  rewrite Hall; [|by left]. apply IH. intros y Hy. apply Hall. by right.
Qed.

Lemma roundRobin_first this first rest :
  (∀ s, s ∈ first :: rest → Some (id s) ≠ lastSelectedStudent this) →
  fst (roundRobin this (first :: rest)) = Some first.
Proof.
  intros Hmissing. unfold roundRobin. destruct rest as [|second rest]; [done|].
  case_bool_decide; [done|].
  unfold findIndex. rewrite findIndex_from_none.
  - change (-1 + 1) with 0. rewrite Z.rem_0_l; [|unfold len; simpl; lia].
    by destruct (avoidImmediateRepeat this && _).
  - intros s Hs. apply bool_decide_eq_false. by apply Hmissing.
Qed.

(** X5. Under ['roundRobin'], when no eligible entry has the id recorded in
    [lastSelectedStudent] (a fresh engine, an engine after [reset], a roster
    from which the entry picked last has been taken away), [selectStudent]
    returns the first eligible entry, whatever the options. *)
Theorem roundRobin_restarts_at_first_entry
    (sm : option StorageManager) (this : CallAlgorithm) (c : Chance)
    (students : list Student) (options : Options) (first : Student)
    (rest : list Student)
    (Heligible : eligible sm students RoundRobin = first :: rest)
    (Hmissing : ∀ s, s ∈ first :: rest → Some (id s) ≠ lastSelectedStudent this) :
  fst (selectStudent sm this c students RoundRobin options) = Return (Some first).
Proof.
  rewrite selectStudent_dispatch; [|by rewrite Heligible]. cbv zeta.
  rewrite Heligible. cbn [dispatch fst snd].
  rewrite roundRobin_first; [done|].
  intros s Hs. rewrite last_setAvoidImmediateRepeat. by apply Hmissing.
Qed.

Lemma roundRobin_restarts_at_first_entry_witness :
  let this :=
    {| lastSelectedStudent := Some 7; selectedStudents := {[ 7 ]};
       avoidImmediateRepeat := true |} in
  eligible None scenario RoundRobin = student 1 "A" 5 :: [student 2 "B" 0; student 3 "C" 2] ∧
  fst (selectStudent None this (constant_chance 0) scenario RoundRobin avoid_repeat)
    = Return (Some (student 1 "A" 5)).
Proof.
  cbv zeta. split; [reflexivity|].
  apply (roundRobin_restarts_at_first_entry None _ (constant_chance 0) scenario
           avoid_repeat (student 1 "A" 5) [student 2 "B" 0; student 3 "C" 2]).
  - reflexivity.
  - intros s Hs. simpl.
    repeat (apply elem_of_cons in Hs as [-> | Hs]; [discriminate|]).
    by apply elem_of_nil in Hs.
Defined.

Lemma roundRobin_run_single this only cs groupCount i :
  (i < length cs)%nat →
  fst (run None this cs [only] RoundRobin (options_of (Some true) groupCount))
    !! i = Some (Return (Some only)).
Proof.
  revert this i. induction cs as [|c cs IH]; intros this i Hi; simpl in Hi; [lia|].
  destruct i as [|i]; [done|].
  cbn [run fst]. rewrite lookup_cons. apply IH. lia.
Qed.

Lemma roundRobin_run_lookup pool groupCount :
  NoDup (map id pool) → (2 ≤ length pool)%nat →
  ∀ cs this j i,
    roundRobin_next pool this j → (j < length pool)%nat → (i < length cs)%nat →
    ∃ s, pool !! ((j + i) mod length pool)%nat = Some s
         ∧ fst (run None this cs pool RoundRobin
                  (options_of (Some true) groupCount)) !! i
           = Some (Return (Some s)).
Proof.
  intros Hids Hlen.
  induction cs as [|c cs IH]; intros this j i Hnext Hj Hi; simpl in Hi; [lia|].
  destruct (lookup_lt_is_Some_2 pool j Hj) as [s0 Hs0].
  destruct (roundRobin_step this c pool groupCount j s0 Hids Hlen Hnext Hs0)
    as [Hpick Hnext1].
  cbn [run fst snd]. rewrite Hpick. destruct i as [|i].
  - exists s0. rewrite Nat.add_0_r, Nat.mod_small; done.
  - destruct (IH _ (S j mod length pool)%nat i Hnext1) as (s & Hs & Hout).
    + apply Nat.mod_upper_bound. lia.
    + lia.
    + exists s. split; [|done].
      rewrite Nat.Div0.add_mod_idemp_l in Hs.
      by replace (j + S i)%nat with (S j + i)%nat by lia.
Qed.

(** X6. Under ['roundRobin'] with repeat avoidance on at every call, on a
    fresh engine and a roster whose ids are pairwise distinct, the call
    number [i] (from 0) returns the eligible entry at index [i mod n]: the
    roster is visited in order, again and again. *)
Theorem roundRobin_with_avoidance_visits_in_order
    (sm : option StorageManager) (students : list Student) (cs : list Chance)
    (groupCount : option Z) (i : nat)
    (Hids : NoDup (map id students))
    (Hcall : (i < length cs)%nat)
    (Heligible : eligible sm students RoundRobin ≠ []) :
  ∃ s, eligible sm students RoundRobin
         !! (i mod length (eligible sm students RoundRobin))%nat = Some s
       ∧ fst (run sm constructor cs students RoundRobin
                (options_of (Some true) groupCount)) !! i
         = Some (Return (Some s)).
Proof.
  rewrite run_on_eligible; [|done].
  pose proof (eligible_ids_distinct sm students RoundRobin Hids) as Hpool.
  destruct (eligible sm students RoundRobin) as [|a [|b rest]] eqn:Hshape; [done| |].
  - exists a. split; [by rewrite Nat.mod_1_r|]. by apply roundRobin_run_single.
  - apply (roundRobin_run_lookup _ groupCount Hpool) with (j := 0%nat);
      [simpl; lia | by left | simpl; lia | done].
Qed.

Lemma roundRobin_with_avoidance_visits_in_order_witness :
  let cs := [constant_chance 0; constant_chance 0; constant_chance 0;
             constant_chance 0; constant_chance 0] in
  NoDup (map id scenario) ∧ (4 < length cs)%nat ∧
  eligible None scenario RoundRobin ≠ [] ∧
  fst (run None constructor cs scenario RoundRobin (options_of (Some true) None))
    !! 4%nat = Some (Return (Some (student 2 "B" 0))).
Proof.
  cbv zeta.
  assert (Hids : NoDup (map id scenario)).
  { apply (bool_decide_unpack (NoDup (map id scenario))). by vm_compute. }
  split; [exact Hids|]. split; [simpl; lia|]. split; [discriminate|].
  destruct (roundRobin_with_avoidance_visits_in_order None scenario
              [constant_chance 0; constant_chance 0; constant_chance 0;
               constant_chance 0; constant_chance 0] None 4 Hids)
    as (s & Hs & Hout); [simpl; lia | discriminate |].
  vm_compute in Hs. injection Hs as <-. exact Hout.
Defined.

(** ** The set of chosen ids *)

(** X7. [selectedStudents] only ever holds ids of roster entries: when all
    its ids are ids of entries of the roster before a call of
    [selectStudent], with draws in [0,1) and a shuffle that permutes, the
    same holds after the call. *)
Theorem selectedStudents_within_roster
    (sm : option StorageManager) (this : CallAlgorithm) (c : Chance)
    (students : list Student) (algorithm : Algorithm) (options : Options)
    (Hchance : valid_chance c)
    (Hbefore : ∀ i, i ∈ selectedStudents this → ∃ s, s ∈ students ∧ id s = i) :
  ∀ i, i ∈ selectedStudents
             (snd (selectStudent sm this c students algorithm options)) →
       ∃ s, s ∈ students ∧ id s = i.
Proof.
  destruct students as [|a rest]; [done|].
  set (students := a :: rest) in *.
  rewrite selectStudent_eligible; [|done]. cbv zeta.
  set (this1 := setAvoidImmediateRepeat this _).
  assert (Hone : ∀ i, i ∈ selectedStudents this1 → ∃ s, s ∈ students ∧ id s = i).
  { unfold this1. rewrite selected_setAvoidImmediateRepeat.
    destruct (default false _); [done|]. intros i Hi. by apply elem_of_empty in Hi. }
  destruct (negb (is_fair algorithm) && bool_decide (is_Some sm) && _); [done|].
  pose proof (selected_dispatch this1 c (eligible sm students algorithm)
                algorithm options) as Hset.
  pose proof (dispatch_member this1 c (eligible sm students algorithm)
                algorithm options) as Hmember.
  destruct (dispatch this1 c _ algorithm options) as [outcome this2].
  simpl in *.
  assert (Htwo : ∀ i, i ∈ selectedStudents this2 → ∃ s, s ∈ students ∧ id s = i).
  { destruct Hset as [-> | ->]; [done|]. intros i Hi. by apply elem_of_empty in Hi. }
  destruct outcome as [[s|]|]; simpl; [|done..].
  specialize (Hmember s Hchance eq_refl). apply eligible_subseteq in Hmember.
  unfold record_selection. destruct (avoidImmediateRepeat this2); simpl; [|done].
  case_bool_decide; simpl.
  - intros i Hi. by apply elem_of_empty in Hi.
  - intros i Hi. apply elem_of_union in Hi as [Hi | Hi]; [|by apply Htwo].
    apply elem_of_singleton in Hi as ->. by exists s.
Qed.

Lemma selectedStudents_within_roster_witness :
  valid_chance (constant_chance 0) ∧
  ∀ i, i ∈ selectedStudents
             (snd (selectStudent None constructor (constant_chance 0) scenario
                     Weighted avoid_repeat)) →
       ∃ s, s ∈ scenario ∧ id s = i.
Proof.
  assert (Hvalid : valid_chance (constant_chance 0))
    by apply valid_constant_chance, valid_draw_zero.
  split; [exact Hvalid|].
  apply (selectedStudents_within_roster None constructor (constant_chance 0)
           scenario Weighted avoid_repeat Hvalid).
  intros i Hi. by apply elem_of_empty in Hi.
Defined.

(** *** The fair policy under repeat avoidance *)

Lemma fair_step this c pool groupCount algorithm :
  algorithm = Fair ∨ (∃ label, algorithm = Unknown label) →
  NoDup (map id pool) → valid_chance c →
  (S (size (selectedStudents this)) < length pool)%nat →
  ∃ s, s ∈ pool ∧ (id s ∉ selectedStudents this)
       ∧ fst (selectStudent None this c pool algorithm
                (options_of (Some true) groupCount)) = Return (Some s)
       ∧ selectedStudents
           (snd (selectStudent None this c pool algorithm
                   (options_of (Some true) groupCount)))
         = {[ id s ]} ∪ selectedStudents this.
Proof.
  intros Hpolicy Hids [Hdraw _] Hsize.
  assert (Hne : pool ≠ []) by (intros ->; simpl in Hsize; lia).
  rewrite selectStudent_dispatch; [|by rewrite eligible_no_storage].
  cbv zeta. rewrite eligible_no_storage.
  change (setAvoidImmediateRepeat this _)
    with (setAvoidImmediateRepeat this true).
  set (this1 := setAvoidImmediateRepeat this true).
  assert (Hdispatch :
    dispatch this1 c pool algorithm (options_of (Some true) groupCount)
    = (Return (fairRandom this1 (random c 0) pool), this1)).
  { by destruct Hpolicy as [-> | [label ->]]. }
  rewrite Hdispatch. cbn [fst snd].
  destruct (some_entry_unchosen pool (selectedStudents this) Hids) as (e & He & Hfree);
    [lia|].
  assert (Hmem : e ∈ filter (λ s, negb (has this1 s) = true) pool).
  { apply list_elem_of_filter. split; [|done].
    unfold has. simpl. by rewrite negb_true_iff, bool_decide_eq_false. }
  assert (Hpool : fair_pool this1 pool
                  = filter (λ s, negb (has this1 s) = true) pool).
  { unfold fair_pool. simpl.
    rewrite bool_decide_eq_true_2; [|unfold set_size, len; simpl; lia].
    rewrite bool_decide_eq_true_2; [done|].
    apply list_elem_of_lookup in Hmem as [k Hk]. apply lookup_lt_Some in Hk.
    unfold len. lia. }
  rewrite fairRandom_pool; [|done]. rewrite Hpool.
  destruct (random_element_is_Some (random c 0)
              (filter (λ s, negb (has this1 s) = true) pool) (Hdraw 0%nat))
    as [s Hs].
  { intros Hnil. rewrite Hnil in Hmem. by apply elem_of_nil in Hmem. }
  rewrite Hs. apply random_element_elem_of in Hs.
  apply list_elem_of_filter in Hs as [Hunchosen Hin].
  unfold has in Hunchosen. simpl in Hunchosen.
  rewrite negb_true_iff, bool_decide_eq_false in Hunchosen.
  exists s. split; [done|]. split; [done|]. split; [done|].
  unfold record_selection. simpl. unfold set_size, len. simpl.
  rewrite size_add_new; [|done].
  rewrite bool_decide_eq_false_2; [done | lia].
Qed.

Lemma fair_run pool groupCount algorithm :
  algorithm = Fair ∨ (∃ label, algorithm = Unknown label) →
  NoDup (map id pool) →
  ∀ cs this,
    Forall valid_chance cs →
    (size (selectedStudents this) + length cs < length pool)%nat →
    ∃ picks,
      fst (run None this cs pool algorithm (options_of (Some true) groupCount))
      = map (λ s, Return (Some s)) picks
      ∧ NoDup (map id picks)
      ∧ (∀ s, s ∈ picks → s ∈ pool ∧ id s ∉ selectedStudents this).
Proof.
  intros Hpolicy Hids. induction cs as [|c cs IH]; intros this Hvalid Hroom.
  - exists []. simpl. split; [done|]. split; [constructor|].
    intros s Hs. by apply elem_of_nil in Hs.
  - apply Forall_cons in Hvalid as [Hc Hvalid]. simpl in Hroom.
    destruct (fair_step this c pool groupCount algorithm Hpolicy Hids Hc)
      as (s & Hs & Hfresh & Hpick & Hset); [lia|].
    cbn [run fst snd].
    set (this1 := snd (selectStudent None this c pool algorithm
                         (options_of (Some true) groupCount))) in *.
    rewrite Hpick.
    destruct (IH this1 Hvalid) as (picks & Hout & Hnodup & Hfree).
    { rewrite Hset, size_add_new; [lia | done]. }
    exists (s :: picks). rewrite Hout. simpl. split; [done|]. split.
    + apply NoDup_cons. split; [|done].
      intros Hdup. apply list_elem_of_In, in_map_iff in Hdup as (s' & Hid & Hs').
      apply list_elem_of_In in Hs'. apply (Hfree s' Hs').
      rewrite Hset, Hid. apply elem_of_union_l. by apply elem_of_singleton.
    + intros s' Hs'. apply elem_of_cons in Hs' as [-> | Hs']; [done|].
      destruct (Hfree s' Hs') as [Hin Hout']. split; [done|].
      intros Hchosen. apply Hout'. rewrite Hset. by apply elem_of_union_r.
Qed.

(** X8. Under ['fair'] with repeat avoidance on at every call, on a fresh
    engine and a roster of [n] entries with pairwise distinct ids, the first
    [n - 1] calls each return a roster entry and no entry twice. *)
Theorem fair_with_avoidance_first_picks_differ
    (sm : option StorageManager) (students : list Student) (cs : list Chance)
    (groupCount : option Z)
    (Hids : NoDup (map id students))
    (Hchances : Forall valid_chance cs)
    (Hcalls : (length cs < length students)%nat) :
  ∃ picks,
    fst (run sm constructor cs students Fair (options_of (Some true) groupCount))
    = map (λ s, Return (Some s)) picks
    ∧ NoDup (map id picks)
    ∧ ∀ s, s ∈ picks → s ∈ students.
Proof.
  assert (Hne : eligible sm students Fair ≠ []).
  { rewrite eligible_fair. intros ->. simpl in Hcalls. lia. }
  rewrite run_on_eligible; [|done]. rewrite eligible_fair.
  destruct (fair_run students groupCount Fair (or_introl eq_refl) Hids cs
              constructor Hchances) as (picks & Hout & Hnodup & Hfree).
  { unfold constructor. cbn [selectedStudents]. rewrite size_empty. lia. }
  exists picks. split; [done|]. split; [done|].
  intros s Hs. by apply Hfree.
Qed.

Lemma fair_with_avoidance_first_picks_differ_witness :
  let cs := [constant_chance 0; constant_chance 0] in
  NoDup (map id scenario) ∧ Forall valid_chance cs ∧
  (length cs < length scenario)%nat ∧
  ∃ picks,
    fst (run None constructor cs scenario Fair (options_of (Some true) None))
    = map (λ s, Return (Some s)) picks
    ∧ NoDup (map id picks).
Proof.
  cbv zeta.
  assert (Hids : NoDup (map id scenario)).
  { apply (bool_decide_unpack (NoDup (map id scenario))). by vm_compute. }
  assert (Hvalid : Forall valid_chance [constant_chance 0; constant_chance 0]).
  { repeat constructor; apply valid_constant_chance, valid_draw_zero. }
  assert (Hcalls : (length [constant_chance 0; constant_chance 0]
                    < length scenario)%nat) by (simpl; lia).
  split; [exact Hids|]. split; [exact Hvalid|]. split; [exact Hcalls|].
  destruct (fair_with_avoidance_first_picks_differ None scenario
              [constant_chance 0; constant_chance 0] None Hids Hvalid Hcalls)
    as (picks & Hout & Hnodup & _).
  by exists picks.
Defined.

(** ** The weighted policy *)

Lemma walk_first (items : list (Student * Z)) (random : Q) (k : nat)
    (item : Student * Z) :
  items !! k = Some item →
  (remainder items random (S k) <= 0)%Q →
  (∀ j, (j < k)%nat → (0 < remainder items random (S j))%Q) →
  walk items random = Some (fst item).
Proof.
  intros Hk Hstop Hbefore. pose proof (walk_spec items random) as Hwalk.
  destruct (walk items random) as [s|].
  - destruct Hwalk as (k' & item' & Hk' & <- & Hstop' & Hbefore').
    destruct (Nat.lt_total k k') as [Hlt | [-> | Hgt]].
    + specialize (Hbefore' k Hlt). lra.
    + congruence.
    + specialize (Hbefore k' Hgt). lra.
  - apply lookup_lt_Some in Hk. specialize (Hwalk k Hk). lra.
Qed.

Lemma totalWeight_app items1 items2 :
  totalWeight (items1 ++ items2) = totalWeight items1 + totalWeight items2.
Proof.
  unfold totalWeight. rewrite foldl_app.
  by rewrite (foldl_weight_shift items2 (foldl _ 0 items1)).
Qed.

Lemma totalWeight_nonneg (items : list (Student * Z)) :
  (∀ item, item ∈ items → 1 ≤ snd item) → 0 ≤ totalWeight items.
Proof.
  intros Hall. pose proof (totalWeight_ge_length items Hall). unfold len in *. lia.
Qed.

(** The sums of the weights before, at and after an item. *)
Lemma totalWeight_split (items : list (Student * Z)) (k : nat)
    (item : Student * Z) :
  (∀ other, other ∈ items → 1 ≤ snd other) → items !! k = Some item →
  totalWeight (take (S k) items) = totalWeight (take k items) + snd item
  ∧ totalWeight (take (S k) items) ≤ totalWeight items
  ∧ ∀ j, (j ≤ k)%nat → totalWeight (take j items) ≤ totalWeight (take k items).
Proof.
  intros Hall Hk. split; [|split].
  - rewrite (take_S_r items k item Hk), totalWeight_app.
    change (totalWeight [item]) with (0 + snd item). lia.
  - rewrite <- (take_drop (S k) items) at 2. rewrite totalWeight_app.
    assert (0 ≤ totalWeight (drop (S k) items)); [|lia].
    apply totalWeight_nonneg. intros other Hother. apply Hall.
    eapply elem_of_sublist; [exact Hother | apply sublist_drop].
  - intros j Hj.
    replace (take j items) with (take j (take k items))
      by (rewrite take_take; f_equal; lia).
    rewrite <- (take_drop j (take k items)) at 2. rewrite totalWeight_app.
    assert (0 ≤ totalWeight (drop j (take k items))); [|lia].
    apply totalWeight_nonneg. intros other Hother. apply Hall.
    eapply elem_of_sublist; [exact Hother|].
    etrans; [apply sublist_drop | apply sublist_take].
Qed.

Lemma selectByWeight_reaches (items : list (Student * Z)) (k : nat)
    (item : Student * Z) :
  (∀ other, other ∈ items → 1 ≤ snd other) → items !! k = Some item →
  ∃ r, valid_draw r ∧ selectByWeight r items = Return (Some (fst item)).
Proof.
  intros Hall Hk.
  destruct (totalWeight_split items k item Hall Hk) as (Hnext & Htop & Hmono).
  assert (Hitem : 1 ≤ snd item)
    by (apply Hall; by eapply list_elem_of_lookup_2).
  assert (Hzero : 0 ≤ totalWeight (take k items)).
  { specialize (Hmono 0%nat). rewrite take_0 in Hmono. apply Hmono. lia. }
  set (total := totalWeight items) in *.
  set (upto := totalWeight (take (S k) items)) in *.
  assert (Htotal : (0 < inject_Z total)%Q).
  { change 0%Q with (inject_Z 0). rewrite <- Zlt_Qlt. lia. }
  assert (Hupto : (1 <= inject_Z upto)%Q ∧ (inject_Z upto <= inject_Z total)%Q).
  { change 1%Q with (inject_Z 1). rewrite <- !Zle_Qle. lia. }
  set (r := ((inject_Z upto - (1 # 2)) / inject_Z total)%Q).
  assert (Hdrawn : (r * inject_Z total == inject_Z upto - (1 # 2))%Q).
  { unfold r. field. lra. }
  exists r. split.
  - split.
    + apply Qle_shift_div_l; [done | lra].
    + apply Qlt_shift_div_r; [done | lra].
  - unfold selectByWeight. fold total.
    rewrite bool_decide_eq_false_2; [|lia].
    rewrite (walk_first items (r * inject_Z total) k item Hk); [done | |].
    + unfold remainder. fold upto. lra.
    + intros j Hj. unfold remainder.
      assert (Hbelow : (inject_Z (totalWeight (take (S j) items)) + 1
                        <= inject_Z upto)%Q).
      { change 1%Q with (inject_Z 1). rewrite <- inject_Z_plus, <- Zle_Qle.
        specialize (Hmono (S j)). lia. }
      lra.
Qed.

Lemma weightedRandom_many this r students :
  (2 ≤ length students)%nat →
  weightedRandom this r students
  = selectByWeight r (studentsWithWeights this students).
Proof.
  intros Hlen. unfold weightedRandom.
  destruct students as [|a [|b rest]]; [simpl in Hlen; lia..|done].
Qed.

(** X9. Under ['weighted'] every eligible entry can be returned at every
    call, whatever the engine state and also under repeat avoidance: for
    each one there are draws in [0,1) with which [selectStudent] returns
    it, as each weight is at least 1. *)
Theorem weighted_reaches_every_entry
    (sm : option StorageManager) (this : CallAlgorithm)
    (students : list Student) (options : Options) (e : Student)
    (Heligible : e ∈ eligible sm students Weighted) :
  ∃ c, valid_chance c
       ∧ fst (selectStudent sm this c students Weighted options)
         = Return (Some e).
Proof.
  assert (Hne : eligible sm students Weighted ≠ []).
  { intros Hnil. rewrite Hnil in Heligible. by apply elem_of_nil in Heligible. }
  set (this1 := setAvoidImmediateRepeat this
                  (default false (opt_avoidImmediateRepeat options))).
  assert (Hdraw : ∃ r, valid_draw r
                       ∧ weightedRandom this1 r (eligible sm students Weighted)
                         = Return (Some e)).
  { set (pool := eligible sm students Weighted) in *.
    destruct (decide (length pool = 1)%nat) as [Hone | Hmany].
    - exists 0%Q. split; [apply valid_draw_zero|].
      destruct pool as [|a [|b rest]]; [done| |done].
      apply list_elem_of_singleton in Heligible. by subst.
    - apply list_elem_of_lookup in Heligible as [k Hk].
      destruct (selectByWeight_reaches (studentsWithWeights this1 pool) k
                  (e, weight this1 pool e)) as (r & Hr & Hpick).
      + intros other Hother. rewrite studentsWithWeights_weight in Hother.
        apply list_elem_of_In, in_map_iff in Hother as (s & <- & Hs).
        simpl. apply weight_positive. by apply list_elem_of_In.
      + rewrite studentsWithWeights_weight.
        change (map ?f ?l) with (f <$> l). by rewrite list_lookup_fmap, Hk.
      + exists r. split; [done|].
        rewrite weightedRandom_many; [done|].
        destruct pool as [|a [|b rest]]; [done | done | simpl; lia]. }
  destruct Hdraw as (r & Hr & Hpick).
  exists {| random := λ _, r; shuffle := λ l, l; clock := λ _, 0 |}.
  split; [by split|].
  rewrite selectStudent_dispatch; [|done]. cbv zeta. fold this1.
  cbn [dispatch fst snd random]. by rewrite Hpick.
Qed.

Lemma weighted_reaches_every_entry_witness :
  let this :=
    {| lastSelectedStudent := Some 1; selectedStudents := {[ 1 ]};
       avoidImmediateRepeat := true |} in
  student 1 "A" 5 ∈ eligible None scenario Weighted ∧
  ∃ c, valid_chance c
       ∧ fst (selectStudent None this c scenario Weighted avoid_repeat)
         = Return (Some (student 1 "A" 5)).
Proof.
  cbv zeta.
  assert (Hin : student 1 "A" 5 ∈ eligible None scenario Weighted) by (by left).
  split; [exact Hin|].
  exact (weighted_reaches_every_entry None _ scenario avoid_repeat
           (student 1 "A" 5) Hin).
Defined.

(** ** The group policy *)

Lemma ceil_div_positive (n groupCount : Z) :
  1 ≤ n → 1 ≤ groupCount → 1 ≤ ceil_div n groupCount.
Proof.
  intros Hn Hg. unfold ceil_div.
  assert (Z.div (- n) groupCount < 0); [|lia].
  apply Z.div_lt_upper_bound; lia.
Qed.

Lemma length_slice {A} (arr : list A) (start stop : Z) :
  0 ≤ start → start < stop → start < len arr →
  (0 < length (slice arr start stop))%nat.
Proof.
  intros Hstart Hstop Hlen. unfold slice, len in *.
  rewrite length_take, length_drop. lia.
Qed.

Lemma slice_beyond {A} (arr : list A) (start stop : Z) :
  len arr ≤ start → slice arr start stop = [].
Proof.
  intros Hstart. unfold slice, len in *. rewrite drop_ge; [|lia]. apply take_nil.
Qed.

Lemma groups_of_lookup shuffled n groupCount (i : nat) :
  Z.of_nat i < groupCount →
  groups_of shuffled n groupCount !! i
  = Some (slice shuffled (Z.of_nat i * ceil_div n groupCount)
            (Z.min (Z.of_nat i * ceil_div n groupCount + ceil_div n groupCount) n)).
Proof.
  intros Hi. unfold groups_of. change (map ?f ?l) with (f <$> l).
  rewrite list_lookup_fmap, lookup_seqZ_lt; [|done]. simpl.
  by rewrite Z.add_0_l.
Qed.

Lemma length_groups_of shuffled n groupCount :
  length (groups_of shuffled n groupCount) = Z.to_nat groupCount.
Proof. unfold groups_of. by rewrite length_map, length_seqZ. Qed.

Lemma groupRandom_filled this c pool groupCount :
  valid_chance c → groups_all_filled (len pool) groupCount →
  ∃ s, groupRandom this c pool groupCount = Some s ∧ s ∈ pool.
Proof.
  intros [Hdraw Hshuffle] [[Hg Hgn] Hfilled]. unfold groupRandom.
  destruct pool as [|a rest]; [unfold len in Hgn; simpl in Hgn; lia|].
  set (pool := a :: rest) in *.
  rewrite bool_decide_eq_false_2; [|lia].
  set (shuffled := shuffle c pool).
  assert (Hlen : len shuffled = len pool).
  { unfold len, shuffled. by rewrite (Hshuffle pool). }
  set (groups := groups_of shuffled (len pool) groupCount).
  destruct (random_element_is_Some (random c 0) groups (Hdraw 0%nat))
    as [group Hgroup].
  { intros Hnil. pose proof (length_groups_of shuffled (len pool) groupCount) as Hl.
    fold groups in Hl. rewrite Hnil in Hl. simpl in Hl. lia. }
  rewrite Hgroup. apply random_element_elem_of in Hgroup.
  apply list_elem_of_lookup in Hgroup as [i Hi].
  assert (Hbound : Z.of_nat i < groupCount).
  { apply lookup_lt_Some in Hi. unfold groups in Hi.
    rewrite length_groups_of in Hi. lia. }
  unfold groups in Hi. rewrite groups_of_lookup in Hi; [|done].
  injection Hi as <-.
  pose proof (ceil_div_positive (len pool) groupCount) as Hsize.
  set (groupSize := ceil_div (len pool) groupCount) in *.
  assert (Hstart : Z.of_nat i * groupSize < len pool) by nia.
  destruct (fairRandom_picks this (random c 1)
              (slice shuffled (Z.of_nat i * groupSize)
                 (Z.min (Z.of_nat i * groupSize + groupSize) (len pool)))
              (Hdraw 1%nat)) as (s & Hs & Hin).
  { intros Hnil.
    pose proof (length_slice shuffled (Z.of_nat i * groupSize)
                  (Z.min (Z.of_nat i * groupSize + groupSize) (len pool))) as Hl.
    rewrite Hnil in Hl. simpl in Hl. 
    assert (0 < 0)%nat; [|lia]. apply Hl; nia. }
  exists s. split; [done|].
  apply slice_elem_of in Hin. unfold shuffled in Hin.
  by rewrite (Hshuffle pool) in Hin.
Qed.

(** X10. Under ['group'], when the group count in force (the option, or 3
    when it is absent or 0) lies between 1 and the number [n] of eligible
    entries and [(groupCount - 1) * ceil(n / groupCount) < n], so that no
    group is empty, [selectStudent] returns an eligible entry for all draws
    in [0,1) and every shuffle. *)
Theorem group_policy_returns_entry_when_groups_filled
    (sm : option StorageManager) (this : CallAlgorithm) (c : Chance)
    (students : list Student) (options : Options)
    (Hchance : valid_chance c)
    (Hfilled : groups_all_filled (len (eligible sm students Group))
                 (or_default (opt_groupCount options) 3)) :
  ∃ s, fst (selectStudent sm this c students Group options) = Return (Some s)
       ∧ s ∈ eligible sm students Group.
Proof.
  assert (Hne : eligible sm students Group ≠ []).
  { intros Hnil. rewrite Hnil in Hfilled. destruct Hfilled as [[? ?] _].
    unfold len in *. simpl in *. lia. }
  rewrite selectStudent_dispatch; [|done]. cbv zeta. cbn [dispatch fst snd].
  destruct (groupRandom_filled
              (setAvoidImmediateRepeat this
                 (default false (opt_avoidImmediateRepeat options)))
              c (eligible sm students Group)
              (or_default (opt_groupCount options) 3) Hchance Hfilled)
    as (s & Hs & Hin).
  exists s. by rewrite Hs.
Qed.

Lemma group_policy_returns_entry_when_groups_filled_witness :
  valid_chance (constant_chance (9 # 10)) ∧
  groups_all_filled (len (eligible None scenario Group))
    (or_default (opt_groupCount no_options) 3) ∧
  ∃ s, fst (selectStudent None constructor (constant_chance (9 # 10)) scenario
              Group no_options) = Return (Some s)
       ∧ s ∈ eligible None scenario Group.
Proof.
  assert (Hvalid : valid_chance (constant_chance (9 # 10)))
    by (apply valid_constant_chance; by split).
  assert (Hfilled : groups_all_filled (len (eligible None scenario Group))
                      (or_default (opt_groupCount no_options) 3))
    by (vm_compute; repeat split; discriminate).
  split; [exact Hvalid|]. split; [exact Hfilled|].
  exact (group_policy_returns_entry_when_groups_filled None constructor
           (constant_chance (9 # 10)) scenario no_options Hvalid Hfilled).
Defined.

(** X11. Under ['group'], when the group count in force lies between 1 and
    the number [n] of eligible entries but
    [n <= (groupCount - 1) * ceil(n / groupCount)], the last group is empty:
    there are draws in [0,1) with which [selectStudent] yields [null]
    although entries are eligible. *)
Theorem group_policy_can_yield_none_when_a_group_is_empty
    (sm : option StorageManager) (this : CallAlgorithm)
    (students : list Student) (options : Options)
    (Hcount : 1 ≤ or_default (opt_groupCount options) 3
              ≤ len (eligible sm students Group))
    (Hempty : len (eligible sm students Group)
              ≤ (or_default (opt_groupCount options) 3 - 1)
                * ceil_div (len (eligible sm students Group))
                    (or_default (opt_groupCount options) 3)) :
  ∃ c, valid_chance c
       ∧ fst (selectStudent sm this c students Group options) = Return None.
Proof.
  set (pool := eligible sm students Group) in *.
  set (groupCount := or_default (opt_groupCount options) 3) in *.
  assert (Hne : pool ≠ []).
  { intros Hnil. rewrite Hnil in Hcount. unfold len in Hcount. simpl in Hcount. lia. }
  set (last := Z.to_nat (groupCount - 1)).
  set (r := draw_for last (Z.to_nat groupCount)).
  assert (Hr : valid_draw r) by (apply draw_for_valid; lia).
  exists {| random := λ _, r; shuffle := λ l, l; clock := λ _, 0 |}.
  split; [by split|].
  rewrite selectStudent_dispatch; [|done]. cbv zeta. fold pool groupCount.
  cbn [dispatch fst snd].
  assert (Hgroup : ∀ engine,
    groupRandom engine {| random := λ _, r; shuffle := λ l, l; clock := λ _, 0 |}
      pool groupCount = None).
  { intros engine. unfold groupRandom.
    destruct pool as [|a rest] eqn:Hpool; [done|]. rewrite <- Hpool in *.
    rewrite bool_decide_eq_false_2; [|lia].
    cbn [random shuffle].
    set (groups := groups_of pool (len pool) groupCount).
    assert (Hpick : random_element r groups = Some []).
    { unfold r. replace (Z.to_nat groupCount) with (length groups)
        by apply length_groups_of.
      apply random_element_draw_for. unfold groups.
      rewrite groups_of_lookup; [|lia]. f_equal.
      apply slice_beyond.
      replace (Z.of_nat last) with (groupCount - 1) by (unfold last; lia).
      exact Hempty. }
    by rewrite Hpick. }
  by rewrite Hgroup.
Qed.

Lemma group_policy_can_yield_none_when_a_group_is_empty_witness :
  1 ≤ or_default (opt_groupCount no_options) 3
    ≤ len (eligible None four_students Group) ∧
  ∃ c, valid_chance c
       ∧ fst (selectStudent None constructor c four_students Group no_options)
         = Return None.
Proof.
  assert (Hcount : 1 ≤ or_default (opt_groupCount no_options) 3
                     ≤ len (eligible None four_students Group))
    by (vm_compute; split; discriminate).
  split; [exact Hcount|].
  apply (group_policy_can_yield_none_when_a_group_is_empty None constructor
           four_students no_options Hcount).
  vm_compute. discriminate.
Defined.

(** X12. Without a storage manager, when the roster has fewer entries than
    the group count in force, a call under ['group'] returns what a call
    under ['fair'] returns with the same draws, and leaves the engine in the
    same state. *)
Theorem group_policy_on_small_roster_is_fair
    (this : CallAlgorithm) (c : Chance) (students : list Student)
    (options : Options)
    (Hsmall : len students < or_default (opt_groupCount options) 3) :
  selectStudent None this c students Group options
  = selectStudent None this c students Fair options.
Proof.
  destruct students as [|a rest]; [done|].
  rewrite !selectStudent_dispatch; [|done..]. cbv zeta.
  rewrite !eligible_no_storage. cbn [dispatch fst snd].
  unfold groupRandom. by rewrite bool_decide_eq_true_2.
Qed.

Lemma group_policy_on_small_roster_is_fair_witness :
  len two_students < or_default (opt_groupCount no_options) 3 ∧
  selectStudent None constructor (constant_chance 0) two_students Group no_options
  = selectStudent None constructor (constant_chance 0) two_students Fair no_options.
Proof.
  assert (Hsmall : len two_students < or_default (opt_groupCount no_options) 3)
    by reflexivity.
  split; [exact Hsmall|].
  exact (group_policy_on_small_roster_is_fair constructor (constant_chance 0)
           two_students no_options Hsmall).
Defined.

(** ** Batch selection *)

(** No entry leaves the pool: a promise has no [id]. *)
Lemma batch_step sm todo this cs pool algorithm options selected :
  batch sm (S todo) this cs pool algorithm options selected
  = batch sm todo
      (snd (selectStudent_call sm this (cs 0%nat) pool algorithm options))
      (λ i, cs (S i)) pool algorithm options
      (selected
       ++ [fst (selectStudent_call sm this (cs 0%nat) pool algorithm options)]).
Proof.
  cbn [batch]. unfold findIndex, promise_id.
  rewrite findIndex_from_none; [|intros s _; by apply bool_decide_eq_false].
  rewrite (bool_decide_eq_false_2 (-1 ≠ -1)); [done|].
  intros Hdiffer. by apply Hdiffer.
Qed.

Lemma batch_length sm todo this cs pool algorithm options selected :
  length (fst (batch sm todo this cs pool algorithm options selected))
  = (length selected + todo)%nat.
Proof.
  revert this cs selected. induction todo as [|todo IH]; intros this cs selected.
  - simpl. lia.
  - rewrite batch_step, IH, length_app. simpl. lia.
Qed.

Lemma batch_settled sm todo this cs pool algorithm options selected :
  pool ≠ [] → negb (is_fair algorithm) && bool_decide (is_Some sm) = false →
  batch sm todo this cs pool algorithm options selected
  = (selected
     ++ map Settled
          (fst (run sm this (map cs (seq 0 todo)) pool algorithm options)),
     snd (run sm this (map cs (seq 0 todo)) pool algorithm options)).
Proof.
  intros Hne Hsync. revert this cs selected.
  induction todo as [|todo IH]; intros this cs selected.
  - simpl. by rewrite app_nil_r.
  - rewrite batch_step, IH.
    assert (Hcall : selectStudent_call sm this (cs 0%nat) pool algorithm options
                    = (Settled (fst (selectStudent sm this (cs 0%nat) pool
                                       algorithm options)),
                       snd (selectStudent sm this (cs 0%nat) pool algorithm
                              options))).
    { unfold selectStudent_call. destruct pool; [done|]. by rewrite Hsync. }
    rewrite Hcall. cbn [fst snd seq map run].
    rewrite <- seq_shift, map_map, <- app_assoc. done.
Qed.

Lemma batch_pending sm todo this cs pool algorithm options selected :
  pool ≠ [] → negb (is_fair algorithm) && bool_decide (is_Some sm) = true →
  batch sm todo this cs pool algorithm options selected
  = (selected ++ replicate todo Pending,
     match todo with
     | O => this
     | S _ => setAvoidImmediateRepeat this
                (default false (opt_avoidImmediateRepeat options))
     end).
Proof.
  intros Hne Hasync. revert this cs selected.
  induction todo as [|todo IH]; intros this cs selected.
  - simpl. by rewrite app_nil_r.
  - rewrite batch_step, IH.
    assert (Hcall : selectStudent_call sm this (cs 0%nat) pool algorithm options
                    = (Pending,
                       setAvoidImmediateRepeat this
                         (default false (opt_avoidImmediateRepeat options)))).
    { unfold selectStudent_call. destruct pool; [done|]. by rewrite Hasync. }
    rewrite Hcall. cbn [fst snd replicate]. rewrite <- app_assoc. f_equal.
    destruct todo; [done|].
    by destruct (default false (opt_avoidImmediateRepeat options)).
Qed.

(** X13. Without a storage manager, or under ['fair'], the promises that
    [selectMultipleStudents] returns are settled, and they hold what as many
    successive calls of [selectStudent] on the whole roster return, starting
    with the flag on: no entry is taken out of the pool between two draws. *)
Theorem selectMultipleStudents_draws_from_whole_roster
    (sm : option StorageManager) (this : CallAlgorithm) (cs : nat → Chance)
    (students : list Student) (count : Z) (algorithm : Algorithm)
    (options : Options)
    (Hroster : students ≠ []) (Hcount : 0 < count)
    (Hsync : sm = None ∨ algorithm = Fair) :
  fst (selectMultipleStudents sm this cs students count algorithm options)
  = map Settled
      (fst (run sm (setAvoidImmediateRepeat this true)
              (map cs (seq 0 (Z.to_nat (Z.min count (len students)))))
              students algorithm options)).
Proof.
  unfold selectMultipleStudents.
  rewrite (bool_decide_eq_false_2 (len students = 0)).
  2:{ unfold len. destruct students; [done | simpl; lia]. }
  rewrite (bool_decide_eq_false_2 (count ≤ 0)); [|lia].
  cbn [orb fst]. rewrite batch_settled; [done | done |].
  destruct Hsync as [-> | ->]; [apply andb_false_r | done].
Qed.

Lemma selectMultipleStudents_draws_from_whole_roster_witness :
  scenario ≠ [] ∧ 0 < 2 ∧
  fst (selectMultipleStudents None constructor (λ _, constant_chance 0) scenario 2
         Weighted avoid_repeat)
  = map Settled
      (fst (run None (setAvoidImmediateRepeat constructor true)
              [constant_chance 0; constant_chance 0] scenario Weighted
              avoid_repeat)).
Proof.
  split; [discriminate|]. split; [lia|].
  apply (selectMultipleStudents_draws_from_whole_roster None constructor
           (λ _, constant_chance 0) scenario 2 Weighted avoid_repeat).
  - discriminate.
  - lia.
  - by left.
Defined.

(** X14. [selectMultipleStudents] returns [min(count, students.length)]
    promises, none for an empty roster or a count that is not positive.
    With a storage manager and a policy other than ['fair'] every call of
    [selectStudent] is suspended at its first [await]: all promises are
    pending when the method returns. *)
Theorem selectMultipleStudents_number_of_promises
    (sm : option StorageManager) (this : CallAlgorithm) (cs : nat → Chance)
    (students : list Student) (count : Z) (algorithm : Algorithm)
    (options : Options) :
  length (fst (selectMultipleStudents sm this cs students count algorithm options))
  = Z.to_nat (Z.min count (len students))
  ∧ (is_Some sm → algorithm ≠ Fair →
     fst (selectMultipleStudents sm this cs students count algorithm options)
     = replicate (Z.to_nat (Z.min count (len students))) Pending).
Proof.
  unfold selectMultipleStudents.
  destruct (bool_decide (len students = 0) || bool_decide (count ≤ 0)) eqn:Hskip.
  - assert (Hnone : Z.to_nat (Z.min count (len students)) = 0%nat).
    { apply orb_true_iff in Hskip as [Hskip | Hskip];
        apply bool_decide_eq_true in Hskip; lia. }
    rewrite Hnone. by split.
  - apply orb_false_iff in Hskip as [Hroster Hcount].
    apply bool_decide_eq_false in Hroster.
    cbn [fst]. split.
    + by rewrite batch_length.
    + intros Hsm Hpolicy. rewrite batch_pending; [done | |].
      * intros ->. by apply Hroster.
      * rewrite bool_decide_eq_true_2; [|done]. by destruct algorithm.
Qed.

Lemma selectMultipleStudents_number_of_promises_witness :
  is_Some (Some exclude_first) ∧ Weighted ≠ Fair ∧
  fst (selectMultipleStudents (Some exclude_first) constructor
         (λ _, constant_chance 0) scenario 2 Weighted avoid_repeat)
  = [Pending; Pending].
Proof.
  assert (Hsm : is_Some (Some exclude_first)) by (by eexists).
  assert (Hpolicy : Weighted ≠ Fair) by discriminate.
  split; [exact Hsm|]. split; [exact Hpolicy|].
  exact (proj2 (selectMultipleStudents_number_of_promises (Some exclude_first)
                  constructor (λ _, constant_chance 0) scenario 2 Weighted
                  avoid_repeat) Hsm Hpolicy).
Defined.

(** ** Sorted arrays *)

Section sorting.
Context {A : Type} (cmp : A → A → Q) (key : A → Q).

(** The comparator orders by rising [key]. *)
Hypothesis cmp_key : ∀ a b, Qle_bool (cmp a b) 0 = true ↔ (key a <= key b)%Q.

Lemma sort_insert_sorted (x : A) (sorted : list A) :
  StronglySorted (λ a b, (key a <= key b)%Q) sorted →
  StronglySorted (λ a b, (key a <= key b)%Q) (sort_insert cmp x sorted).
Proof.
  induction sorted as [|y rest IH]; intros Hsorted; simpl.
  - by repeat constructor.
  - apply StronglySorted_inv in Hsorted as [Hrest Hy].
    destruct (Qle_bool (cmp x y) 0) eqn:Hxy.
    + apply cmp_key in Hxy. constructor; [by constructor|].
      constructor; [done|].
      eapply Forall_impl; [exact Hy|]. simpl. intros z Hz. lra.
    + assert (Hyx : (key y <= key x)%Q).
      { apply Qlt_le_weak, Qnot_le_lt. intros Hle. apply cmp_key in Hle. congruence. }
      constructor; [by apply IH|].
      rewrite (sort_insert_perm cmp x rest). by constructor.
Qed.

Lemma js_sort_sorted (arr : list A) :
  StronglySorted (λ a b, (key a <= key b)%Q) (js_sort cmp arr).
Proof.
  induction arr as [|x rest IH]; simpl; [constructor|].
  by apply sort_insert_sorted.
Qed.
End sorting.

(** An array that is in order already is left as it is. *)
Lemma js_sort_in_order {A} (cmp : A → A → Q) (arr : list A) :
  StronglySorted (λ a b, Qle_bool (cmp a b) 0 = true) arr →
  js_sort cmp arr = arr.
Proof.
  induction arr as [|x rest IH]; intros Hsorted; simpl; [done|].
  apply StronglySorted_inv in Hsorted as [Hrest Hx].
  rewrite IH; [|done]. destruct rest as [|y rest]; [done|]. simpl.
  apply Forall_cons in Hx as [Hxy _]. by rewrite Hxy.
Qed.

Lemma sort_insert_map {A B} (f : A → B) (cmp1 : B → B → Q) (cmp2 : A → A → Q)
    (x : A) (sorted : list A) :
  (∀ a b, Qle_bool (cmp1 (f a) (f b)) 0 = Qle_bool (cmp2 a b) 0) →
  sort_insert cmp1 (f x) (map f sorted) = map f (sort_insert cmp2 x sorted).
Proof.
  intros Hsame. induction sorted as [|y rest IH]; simpl; [done|].
  rewrite Hsame. destruct (Qle_bool (cmp2 x y) 0); simpl; [done|].
  by rewrite IH.
Qed.

Lemma js_sort_map {A B} (f : A → B) (cmp1 : B → B → Q) (cmp2 : A → A → Q)
    (arr : list A) :
  (∀ a b, Qle_bool (cmp1 (f a) (f b)) 0 = Qle_bool (cmp2 a b) 0) →
  js_sort cmp1 (map f arr) = map f (js_sort cmp2 arr).
Proof.
  intros Hsame. induction arr as [|x rest IH]; simpl; [done|].
  rewrite IH. by apply sort_insert_map.
Qed.

Lemma slice_first_five {A} (arr : list A) : slice arr 0 5 = take 5 arr.
Proof. done. Qed.

Lemma Qle_bool_eq (x y : Q) (b : bool) :
  (b = true ↔ (x <= y)%Q) → Qle_bool x y = b.
Proof.
  intros Hb. destruct b.
  - apply Qle_bool_iff. by apply Hb.
  - destruct (Qle_bool x y) eqn:Hxy; [|done].
    apply Qle_bool_iff, Hb in Hxy. done.
Qed.

Lemma by_call_count_perm students : by_call_count students ≡ₚ students.
Proof. apply js_sort_perm. Qed.

Lemma by_call_count_sorted students :
  StronglySorted (λ a b, counted a ≤ counted b) (by_call_count students).
Proof.
  assert (Hsorted :
    StronglySorted (λ a b, (inject_Z (counted a) <= inject_Z (counted b))%Q)
      (by_call_count students)).
  { apply (js_sort_sorted (λ a b, inject_Z (counted a - counted b))
             (λ s, inject_Z (counted s))).
    intros a b. rewrite Qle_bool_iff. change 0%Q with (inject_Z 0).
    rewrite <- !Zle_Qle. lia. }
  induction Hsorted as [|a rest Hrest IH Ha]; constructor; [done|].
  eapply Forall_impl; [exact Ha|]. simpl. intros b Hab. by rewrite Zle_Qle.
Qed.

(** ** Prediction *)

Lemma length_top_predictions (predictions : list Prediction) :
  length (top_predictions predictions) = (5 `min` length predictions)%nat.
Proof.
  unfold top_predictions. rewrite slice_first_five, length_take.
  by rewrite (js_sort_perm _ predictions).
Qed.

(** X15. [predictNextStudents] returns [min(5, students.length)]
    predictions, whatever the algorithm; none for an empty roster. *)
Theorem predictNextStudents_length
    (students : list Student) (algorithm : Algorithm) :
  length (predictNextStudents students algorithm)
  = (5 `min` length students)%nat.
Proof.
  unfold predictNextStudents. destruct students as [|a rest]; [done|].
  set (students := a :: rest).
  destruct algorithm; rewrite length_top_predictions;
    unfold fair_predictions; rewrite ?length_map, ?length_imap; try done.
  by rewrite (js_sort_perm _ students).
Qed.

Lemma all_pairs_sorted {A} (R : A → A → Prop) (arr : list A) :
  (∀ a b, a ∈ arr → b ∈ arr → R a b) → StronglySorted R arr.
Proof.
  induction arr as [|x rest IH]; intros Hall; constructor.
  - apply IH. intros a b Ha Hb. apply Hall; by right.
  - apply Forall_forall. intros b Hb. apply Hall; [by left | by right].
Qed.

Lemma top_fair_predictions students :
  top_predictions (fair_predictions students) = take 5 (fair_predictions students).
Proof.
  unfold top_predictions. rewrite slice_first_five. f_equal.
  apply js_sort_in_order, all_pairs_sorted. intros a b Ha Hb.
  unfold fair_predictions in Ha, Hb.
  apply list_elem_of_In, in_map_iff in Ha as (sa & <- & _).
  apply list_elem_of_In, in_map_iff in Hb as (sb & <- & _).
  simpl. apply Qle_bool_iff. lra.
Qed.

(** X16. For every algorithm but ['weighted'] and ['leastCalled'],
    [predictNextStudents] lists the first five roster entries in roster
    order, each with the probability [1 / students.length]: the sort leaves
    entries of equal probability in place. *)
Theorem predictNextStudents_fair_in_roster_order
    (students : list Student) (algorithm : Algorithm)
    (Hweighted : algorithm ≠ Weighted) (Hleast : algorithm ≠ LeastCalled) :
  predictNextStudents students algorithm = take 5 (fair_predictions students)
  ∧ map pred_student (predictNextStudents students algorithm) = take 5 students.
Proof.
  assert (Hfair : predictNextStudents students algorithm
                  = take 5 (fair_predictions students)).
  { unfold predictNextStudents. destruct students as [|a rest]; [done|].
    destruct algorithm; try done; apply top_fair_predictions. }
  split; [done|]. rewrite Hfair. unfold fair_predictions.
  change (map ?f ?l) with (f <$> l). rewrite <- fmap_take, <- list_fmap_compose.
  apply list_fmap_id.
Qed.

Lemma predictNextStudents_fair_in_roster_order_witness :
  RoundRobin ≠ Weighted ∧ RoundRobin ≠ LeastCalled ∧
  map pred_student (predictNextStudents scenario RoundRobin) = take 5 scenario.
Proof.
  assert (Hweighted : RoundRobin ≠ Weighted) by discriminate.
  assert (Hleast : RoundRobin ≠ LeastCalled) by discriminate.
  split; [exact Hweighted|]. split; [exact Hleast|].
  exact (proj2 (predictNextStudents_fair_in_roster_order scenario RoundRobin
                  Hweighted Hleast)).
Defined.

Lemma inject_Z_difference_le (x y : Z) :
  (inject_Z x - inject_Z y <= 0)%Q ↔ x ≤ y.
Proof. rewrite (Zle_Qle x y). split; intros Hle; lra. Qed.

Lemma reciprocal_le (a b : Z) :
  0 < b → b ≤ a → (1 / inject_Z a <= 1 / inject_Z b)%Q.
Proof.
  intros Hb Hab.
  assert (Ha : (0 < inject_Z a)%Q)
    by (change 0%Q with (inject_Z 0); rewrite <- Zlt_Qlt; lia).
  assert (Hb' : (0 < inject_Z b)%Q)
    by (change 0%Q with (inject_Z 0); rewrite <- Zlt_Qlt; lia).
  assert (Hab' : (inject_Z b <= inject_Z a)%Q) by (rewrite <- Zle_Qle; lia).
  apply Qle_shift_div_l; [done|].
  assert (Heq : (1 / inject_Z a * inject_Z b == inject_Z b / inject_Z a)%Q)
    by (field; lra).
  rewrite Heq. apply Qle_shift_div_r; [done|]. lra.
Qed.

(** The predictions of ['leastCalled'] before the final sort, from the rank
    [k] on. *)
Lemma ranked_predictions_in_order (k : nat) (sorted : list Student) :
  StronglySorted
    (λ a b, Qle_bool (probability b - probability a) 0 = true)
    (imap (λ index student,
             {| pred_student := student;
                probability := (1 / inject_Z (Z.of_nat (k + index) + 1))%Q;
                reason := RankReason (Z.of_nat (k + index) + 1) |})
          sorted).
Proof.
  revert k. induction sorted as [|s rest IH]; intros k; simpl; constructor.
  - specialize (IH (S k)).
    erewrite imap_ext; [exact IH|]. intros i x _. simpl.
    by replace (k + S i)%nat with (S k + i)%nat by lia.
  - apply Forall_forall. intros p Hp.
    apply elem_of_lookup_imap_1 in Hp as (i & x & -> & _). simpl.
    apply Qle_bool_iff.
    pose proof (reciprocal_le (Z.of_nat (k + S i) + 1) (Z.of_nat (k + 0) + 1)).
    assert ((1 / inject_Z (Z.of_nat (k + S i) + 1)
             <= 1 / inject_Z (Z.of_nat (k + 0) + 1))%Q) by (apply H; lia).
    lra.
Qed.

Lemma predictNextStudents_by_call_count students algorithm :
  algorithm = Weighted ∨ algorithm = LeastCalled →
  map pred_student (predictNextStudents students algorithm)
  = take 5 (by_call_count students).
Proof.
  intros Hpolicy. unfold predictNextStudents.
  destruct students as [|a rest]; [by destruct Hpolicy as [-> | ->]|].
  set (students := a :: rest).
  destruct Hpolicy as [-> | ->]; unfold top_predictions;
    rewrite slice_first_five.
  - rewrite (js_sort_map _ _ (λ a b, inject_Z (counted a - counted b))).
    + rewrite firstn_map, map_map. simpl. apply map_id.
    + intros x y. simpl. apply Qle_bool_eq. rewrite Qle_bool_iff.
      change 0%Q with (inject_Z 0). rewrite <- Zle_Qle.
      rewrite inject_Z_difference_le. lia.
  - rewrite js_sort_in_order.
    + change (map ?f ?l) with (f <$> l). rewrite fmap_take, fmap_imap.
      fold (by_call_count students). f_equal.
      rewrite (imap_ext _ (λ _ s, s)); [|done].
      rewrite (imap_const (λ s : Student, s)). apply list_fmap_id.
    + apply (ranked_predictions_in_order 0).
Qed.

(** X17. ['weighted'] and ['leastCalled'] predict the same entries in the
    same order: the first five of the roster sorted by rising call count,
    ties in roster order.  The first prediction is an entry with the least
    call count of the roster. *)
Theorem predictNextStudents_orders_by_call_count
    (students : list Student) (algorithm : Algorithm)
    (Hpolicy : algorithm = Weighted ∨ algorithm = LeastCalled) :
  map pred_student (predictNextStudents students algorithm)
    = take 5 (by_call_count students)
  ∧ StronglySorted (λ a b, counted a ≤ counted b)
      (map pred_student (predictNextStudents students algorithm))
  ∧ ∀ first s,
      head (predictNextStudents students algorithm) = Some first →
      s ∈ students →
      pred_student first ∈ students
      ∧ counted (pred_student first) ≤ counted s.
Proof.
  pose proof (predictNextStudents_by_call_count students algorithm Hpolicy)
    as Hsame.
  pose proof (by_call_count_sorted students) as Hsorted.
  pose proof (by_call_count_perm students) as Hperm.
  split; [done|]. split.
  - rewrite Hsame.
    rewrite <- (take_drop 5 (by_call_count students)) in Hsorted.
    by apply StronglySorted_app_1_l in Hsorted.
  - intros first s Hfirst Hs.
    destruct (predictNextStudents students algorithm) as [|p others];
      [done|].
    simpl in Hfirst. injection Hfirst as ->.
    destruct (by_call_count students) as [|x rest] eqn:Hshape; [done|].
    simpl in Hsame. injection Hsame as Hx _. rewrite Hx.
    apply StronglySorted_inv in Hsorted as [_ Hall].
    split.
    + rewrite <- Hperm. by left.
    + rewrite <- Hperm in Hs. apply elem_of_cons in Hs as [-> | Hs]; [done|].
      rewrite Forall_forall in Hall. by apply Hall.
Qed.

Lemma predictNextStudents_orders_by_call_count_witness :
  (Weighted = Weighted ∨ Weighted = LeastCalled) ∧
  map pred_student (predictNextStudents scenario Weighted)
  = [student 2 "B" 0; student 3 "C" 2; student 1 "A" 5].
Proof.
  assert (Hpolicy : Weighted = Weighted ∨ Weighted = LeastCalled) by (by left).
  split; [exact Hpolicy|].
  rewrite (proj1 (predictNextStudents_orders_by_call_count scenario Weighted
                    Hpolicy)).
  reflexivity.
Defined.

(** ** The time balanced policy *)

Lemma scores_sorted (scored : list (Student * Q)) :
  StronglySorted (λ a b, (snd b <= snd a)%Q)
    (js_sort (λ a b, (snd b - snd a)%Q) scored).
Proof.
  pose proof (js_sort_sorted (λ a b : Student * Q, (snd b - snd a)%Q)
                (λ e, (- snd e)%Q)) as Hsorted.
  assert (Hrising :
    StronglySorted (λ a b : Student * Q, (- snd a <= - snd b)%Q)
      (js_sort (λ a b, (snd b - snd a)%Q) scored)).
  { apply Hsorted. intros a b. rewrite Qle_bool_iff. split; intros Hle; lra. }
  clear Hsorted.
  induction Hrising as [|a rest Hrest IH Ha]; constructor; [done|].
  eapply Forall_impl; [exact Ha|]. simpl. intros b Hab. lra.
Qed.

Lemma timeBalanced_top this c pool :
  valid_chance c → (2 ≤ length pool)%nat →
  ∃ entry k,
    js_sort (λ a b, (snd b - snd a)%Q) (studentsWithScores this c pool) !! k
    = Some entry
    ∧ (k < 3)%nat
    ∧ timeBalanced this c pool = Return (Some (fst entry)).
Proof.
  intros [Hdraw _] Hlen. unfold timeBalanced.
  destruct pool as [|a [|b rest]]; [simpl in Hlen; lia..|].
  set (pool := a :: b :: rest) in *.
  fold (studentsWithScores this c pool).
  set (sorted := js_sort _ (studentsWithScores this c pool)).
  assert (Hsize : length sorted = length pool).
  { unfold sorted. rewrite (js_sort_perm _ (studentsWithScores this c pool)).
    apply length_imap. }
  set (top := slice sorted 0 (Z.min 3 (len sorted))).
  assert (Htop : top = take (3 `min` length sorted) sorted).
  { unfold top, slice, len. rewrite drop_0. f_equal. lia. }
  assert (Hmany : (0 < length top)%nat).
  { rewrite Htop, length_take. lia. }
  destruct (randomIndex_range (random c 0) (length top) (Hdraw 0%nat) Hmany)
    as [Hlow Hhigh].
  set (k := Z.to_nat (randomIndex (random c 0) (length top))).
  assert (Hk : (k < length top)%nat) by (unfold k; lia).
  destruct (lookup_lt_is_Some_2 top k Hk) as [entry Hentry].
  exists entry, k. split; [|split].
  - rewrite Htop in Hentry. by apply lookup_take_Some in Hentry as [Hentry _].
  - rewrite Htop, length_take in Hk. lia.
  - unfold random_element, js_index. rewrite bool_decide_eq_true_2; [|done].
    fold k. by rewrite Hentry.
Qed.

Lemma filter_nothing {A} (P : A → Prop) `{∀ x, Decision (P x)} (arr : list A) :
  (∀ x, x ∈ arr → ¬ P x) → filter P arr = [].
Proof.
  induction arr as [|x rest IH]; intros Hall; [done|].
  rewrite filter_cons, decide_False; [|apply Hall; by left].
  apply IH. intros y Hy. apply Hall. by right.
Qed.

Lemma scored_above_sorted (sorted : list (Student * Q)) (k : nat)
    (entry : Student * Q) :
  StronglySorted (λ a b, (snd b <= snd a)%Q) sorted →
  sorted !! k = Some entry →
  (length (scored_above entry sorted) ≤ k)%nat.
Proof.
  intros Hsorted Hk. unfold scored_above.
  rewrite <- (take_drop k sorted), filter_app, length_app.
  assert (Hnone : filter (λ other, Qle_bool (snd other) (snd entry) = false)
                    (drop k sorted) = []).
  { rewrite <- (take_drop k sorted) in Hsorted.
    apply StronglySorted_app_1_r in Hsorted.
    rewrite (drop_S sorted entry k Hk) in *.
    apply StronglySorted_inv in Hsorted as [_ Hafter].
    apply filter_nothing. intros other Hother.
    assert (Hle : (snd other <= snd entry)%Q).
    { apply elem_of_cons in Hother as [-> | Hother]; [lra|].
      rewrite Forall_forall in Hafter. by apply Hafter. }
    apply Qle_bool_iff in Hle. congruence. }
  rewrite Hnone. simpl.
  pose proof (length_filter
                (λ other, Qle_bool (snd other) (snd entry) = false)
                (take k sorted)) as Hle.
  rewrite length_take in Hle. lia.
Qed.

(** X18. Under ['timeBalanced'], with two eligible entries or more and draws
    in [0,1), [selectStudent] returns an entry that is among the three
    highest scores: fewer than three eligible entries have a score above
    the score of the entry returned. *)
Theorem timeBalanced_returns_one_of_top_three
    (sm : option StorageManager) (this : CallAlgorithm) (c : Chance)
    (students : list Student) (options : Options)
    (Hchance : valid_chance c)
    (Hlength : (2 ≤ length (eligible sm students TimeBalanced))%nat) :
  let this1 :=
    setAvoidImmediateRepeat this
      (default false (opt_avoidImmediateRepeat options)) in
  let scored := studentsWithScores this1 c (eligible sm students TimeBalanced) in
  ∃ entry,
    entry ∈ scored
    ∧ fst (selectStudent sm this c students TimeBalanced options)
      = Return (Some (fst entry))
    ∧ (length (scored_above entry scored) < 3)%nat.
Proof.
  cbv zeta.
  set (this1 := setAvoidImmediateRepeat this _).
  set (pool := eligible sm students TimeBalanced) in *.
  assert (Hne : pool ≠ []) by (intros Hnil; rewrite Hnil in Hlength; simpl in Hlength; lia).
  destruct (timeBalanced_top this1 c pool Hchance Hlength)
    as (entry & k & Hk & Hthree & Hpick).
  exists entry. split; [|split].
  - rewrite <- (js_sort_perm (λ a b, (snd b - snd a)%Q)
                  (studentsWithScores this1 c pool)).
    by eapply list_elem_of_lookup_2.
  - rewrite selectStudent_dispatch; [|done]. cbv zeta. fold this1 pool.
    cbn [dispatch fst snd]. by rewrite Hpick.
  - pose proof (scored_above_sorted _ k entry
                  (scores_sorted (studentsWithScores this1 c pool)) Hk) as Hle.
    assert (Hsame :
      length (scored_above entry (studentsWithScores this1 c pool))
      = length (scored_above entry
                  (js_sort (λ a b, (snd b - snd a)%Q)
                     (studentsWithScores this1 c pool)))).
    { unfold scored_above.
      by rewrite (js_sort_perm _ (studentsWithScores this1 c pool)). }
    lia.
Qed.

Lemma timeBalanced_returns_one_of_top_three_witness :
  valid_chance (constant_chance (9 # 10)) ∧
  (2 ≤ length (eligible None four_students TimeBalanced))%nat ∧
  ∃ entry,
    fst (selectStudent None constructor (constant_chance (9 # 10)) four_students
           TimeBalanced no_options) = Return (Some (fst entry))
    ∧ (length (scored_above entry
                 (studentsWithScores
                    (setAvoidImmediateRepeat constructor false)
                    (constant_chance (9 # 10))
                    (eligible None four_students TimeBalanced))) < 3)%nat.
Proof.
  assert (Hvalid : valid_chance (constant_chance (9 # 10)))
    by (apply valid_constant_chance; by split).
  assert (Hlength : (2 ≤ length (eligible None four_students TimeBalanced))%nat)
    by (simpl; lia).
  split; [exact Hvalid|]. split; [exact Hlength|].
  destruct (timeBalanced_returns_one_of_top_three None constructor
              (constant_chance (9 # 10)) four_students no_options
              Hvalid Hlength) as (entry & _ & Hpick & Hfew).
  by exists entry.
Defined.

(** ** Exclusions and unknown algorithms *)

Lemma filter_idempotent {A} (P : A → Prop) `{∀ x, Decision (P x)}
    (arr : list A) :
  filter P (filter P arr) = filter P arr.
Proof.
  induction arr as [|x rest IH]; [done|].
  rewrite filter_cons. case_decide; [|done].
  rewrite filter_cons, decide_True; [|done]. by rewrite IH.
Qed.

Lemma filterStudentsBySpecialStatus_cases sm students algorithm :
  (filterStudentsBySpecialStatus sm students algorithm = students
   ∧ (sm = None ∨ algorithm = Fair))
  ∨ (∃ store, sm = Some store ∧ algorithm ≠ Fair
      ∧ filterStudentsBySpecialStatus sm students algorithm
        = filter (λ s, negb (shouldExcludeStudent store (id s) algorithm) = true)
            students).
Proof.
  destruct sm as [store|]; [|left; split; [done | by left]].
  destruct algorithm; try (right; exists store; by repeat split).
  left. split; [done | by right].
Qed.

(** X19. [filterStudentsBySpecialStatus] keeps, in roster order, exactly the
    entries that the storage manager does not exclude; it returns the roster
    as it is under ['fair'] or without a storage manager, and filtering a
    second time changes nothing. *)
Theorem filterStudentsBySpecialStatus_keeps_the_others
    (sm : option StorageManager) (students : list Student)
    (algorithm : Algorithm) :
  filterStudentsBySpecialStatus sm students algorithm `sublist_of` students
  ∧ (∀ s, s ∈ filterStudentsBySpecialStatus sm students algorithm ↔
          s ∈ students
          ∧ ∀ store, sm = Some store → algorithm ≠ Fair →
                     shouldExcludeStudent store (id s) algorithm = false)
  ∧ filterStudentsBySpecialStatus sm
      (filterStudentsBySpecialStatus sm students algorithm) algorithm
    = filterStudentsBySpecialStatus sm students algorithm
  ∧ filterStudentsBySpecialStatus None students algorithm = students
  ∧ filterStudentsBySpecialStatus sm students Fair = students.
Proof.
  split; [|split; [|split; [|split]]].
  - destruct (filterStudentsBySpecialStatus_cases sm students algorithm)
      as [[-> _] | (store & _ & _ & ->)]; [done | apply sublist_filter].
  - intros s.
    destruct (filterStudentsBySpecialStatus_cases sm students algorithm)
      as [[-> Hnone] | (store & -> & Hpolicy & ->)].
    + split; [|by intros [Hin _]]. intros Hin. split; [done|].
      intros store Hsm Hpolicy. destruct Hnone; congruence.
    + rewrite list_elem_of_filter, negb_true_iff. split.
      * intros [Hkept Hin]. split; [done|]. by intros ? [= <-] _.
      * intros [Hin Hkept]. split; [by apply Hkept | done].
  - destruct (filterStudentsBySpecialStatus_cases sm students algorithm)
      as [[Hsame _] | (store & -> & Hpolicy & Hfilter)].
    + by rewrite !Hsame.
    + rewrite Hfilter.
      destruct (filterStudentsBySpecialStatus_cases (Some store)
                  (filter (λ s, negb (shouldExcludeStudent store (id s) algorithm)
                                = true) students) algorithm)
        as [[-> _] | (store' & [= <-] & _ & ->)]; [done|].
      apply filter_idempotent.
  - done.
  - by destruct sm.
Qed.

Lemma filterStudentsBySpecialStatus_keeps_the_others_witness :
  filterStudentsBySpecialStatus (Some exclude_first) scenario Weighted
  = [student 2 "B" 0; student 3 "C" 2]
  ∧ shouldExcludeStudent exclude_first (id (student 2 "B" 0)) Weighted = false.
Proof.
  split; [reflexivity|].
  destruct (filterStudentsBySpecialStatus_keeps_the_others (Some exclude_first)
              scenario Weighted) as (_ & Hkept & _).
  assert (Hin : student 2 "B" 0
                ∈ filterStudentsBySpecialStatus (Some exclude_first) scenario
                    Weighted) by (vm_compute; by left).
  apply (proj1 (Hkept (student 2 "B" 0))) in Hin as [_ Hother].
  apply Hother; [reflexivity | discriminate].
Defined.

(** X20. An algorithm name that [selectStudent] does not know is served by
    [fairRandom] but, unlike ['fair'], after the excluded entries have been
    taken out: when some entry is eligible, the call returns what a call
    under ['fair'] on the eligible entries returns, and leaves the engine in
    the same state. *)
Theorem unknown_algorithm_is_fair_on_eligible
    (sm : option StorageManager) (this : CallAlgorithm) (c : Chance)
    (students : list Student) (options : Options) (label : string)
    (Heligible : eligible sm students (Unknown label) ≠ []) :
  selectStudent sm this c students (Unknown label) options
  = selectStudent None this c (eligible sm students (Unknown label)) Fair options.
Proof.
  rewrite !selectStudent_dispatch; [|by rewrite eligible_no_storage | done].
  by rewrite eligible_no_storage.
Qed.

Lemma unknown_algorithm_is_fair_on_eligible_witness :
  eligible (Some exclude_first) scenario (Unknown "lottery") ≠ [] ∧
  fst (selectStudent (Some exclude_first) constructor (constant_chance 0) scenario
         (Unknown "lottery") no_options) = Return (Some (student 2 "B" 0)).
Proof.
  assert (Heligible : eligible (Some exclude_first) scenario (Unknown "lottery") ≠ [])
    by (vm_compute; discriminate).
  split; [exact Heligible|].
  rewrite (unknown_algorithm_is_fair_on_eligible (Some exclude_first) constructor
             (constant_chance 0) scenario no_options "lottery" Heligible).
  reflexivity.
Defined.

(** ** Weights *)

(** X21. The weights of ['weighted'] are at least 1 and do not rise with
    the call count: of two roster entries that are both in
    [selectedStudents] or both outside it, the one with fewer calls has at
    least the weight of the other. *)
Theorem weights_fall_with_call_count
    (this : CallAlgorithm) (students : list Student) (a b : Student)
    (wa wb : Z)
    (Ha : (a, wa) ∈ studentsWithWeights this students)
    (Hb : (b, wb) ∈ studentsWithWeights this students)
    (Hchosen : has this a = has this b)
    (Hcalls : counted a ≤ counted b) :
  1 ≤ wb ∧ wb ≤ wa.
Proof.
  rewrite studentsWithWeights_weight in Ha, Hb.
  apply list_elem_of_In, in_map_iff in Ha as (a' & Hpair & Ha).
  injection Hpair as Hsame Hweight. subst a' wa.
  apply list_elem_of_In, in_map_iff in Hb as (b' & Hpair & Hb).
  injection Hpair as Hsame Hweight. subst b' wb.
  apply list_elem_of_In in Ha, Hb.
  split; [by apply weight_positive|].
  assert (counted b ≤ Math_max (map counted students)).
  { apply Math_max_ge. apply list_elem_of_In, in_map, list_elem_of_In, Hb. }
  unfold weight. rewrite Hchosen.
  destruct (avoidImmediateRepeat this && _ && _); lia.
Qed.

Lemma weights_fall_with_call_count_witness :
  (student 2 "B" 0, 6) ∈ studentsWithWeights constructor scenario ∧
  (student 1 "A" 5, 1) ∈ studentsWithWeights constructor scenario ∧
  1 ≤ 1 ∧ 1 ≤ 6.
Proof.
  assert (Ha : (student 2 "B" 0, 6) ∈ studentsWithWeights constructor scenario)
    by (vm_compute; right; by left).
  assert (Hb : (student 1 "A" 5, 1) ∈ studentsWithWeights constructor scenario)
    by (vm_compute; by left).
  split; [exact Ha|]. split; [exact Hb|].
  apply (weights_fall_with_call_count constructor scenario (student 2 "B" 0)
           (student 1 "A" 5) 6 1 Ha Hb); [reflexivity | by vm_compute].
Defined.

(** ** The cycle without repeat avoidance *)

Lemma selected_record_selection_off this s pool :
  avoidImmediateRepeat this = false →
  selectedStudents (record_selection this s pool) = selectedStudents this.
Proof. intros Hoff. unfold record_selection. by rewrite Hoff. Qed.

(** X22. A call of [selectStudent] on a roster that is not empty, with
    options that do not turn repeat avoidance on, leaves [selectedStudents]
    empty and the flag off, whatever the engine held before and whatever the
    call returns: the cycle gathered by earlier calls is forgotten. *)
Theorem call_without_avoidance_forgets_cycle
    (sm : option StorageManager) (this : CallAlgorithm) (c : Chance)
    (students : list Student) (algorithm : Algorithm) (options : Options)
    (Hroster : students ≠ [])
    (Hoff : default false (opt_avoidImmediateRepeat options) = false) :
  selectedStudents (snd (selectStudent sm this c students algorithm options)) = ∅
  ∧ avoidImmediateRepeat
      (snd (selectStudent sm this c students algorithm options)) = false.
Proof.
  rewrite selectStudent_eligible; [|done]. cbv zeta. rewrite Hoff.
  set (this1 := setAvoidImmediateRepeat this false).
  assert (Hselected1 : selectedStudents this1 = ∅) by done.
  assert (Havoid1 : avoidImmediateRepeat this1 = false) by done.
  destruct (negb (is_fair algorithm) && bool_decide (is_Some sm) && _); [done|].
  pose proof (selected_dispatch this1 c (eligible sm students algorithm)
                algorithm options) as Hselected2.
  pose proof (avoid_dispatch this1 c (eligible sm students algorithm)
                algorithm options) as Havoid2.
  rewrite Hselected1 in Hselected2. rewrite Havoid1 in Havoid2.
  assert (Hempty : selectedStudents
                     (snd (dispatch this1 c (eligible sm students algorithm)
                             algorithm options)) = ∅) by (by destruct Hselected2).
  destruct (dispatch this1 c _ algorithm options) as [[[s|]|] this2];
    simpl in *; [|done..].
  by rewrite selected_record_selection_off, avoid_record_selection.
Qed.

Lemma call_without_avoidance_forgets_cycle_witness :
  selectedStudents
    (snd (selectStudent None
            {| lastSelectedStudent := Some 1;
               selectedStudents := {[ 1; 2 ]};
               avoidImmediateRepeat := true |}
            (constant_chance 0) scenario LeastCalled no_options)) = ∅.
Proof.
  apply (call_without_avoidance_forgets_cycle None
           {| lastSelectedStudent := Some 1;
              selectedStudents := {[ 1; 2 ]};
              avoidImmediateRepeat := true |}
           (constant_chance 0) scenario LeastCalled no_options);
    [discriminate | reflexivity].
Defined.
